(** * svg2walkable: SVG path / polygon geometry to walkable polygons

    A shallow embedding of [tools/svg2walkable.py].

    Conventions of the embedding.
    - A Python [str] is a [string]; its characters are code points below 256.
    - A Python [float] is a value of an abstract type [F] with decidable
      equality, [==] being equality of values (so [0.0] and [-0.0] are one
      value).  The arithmetic the program performs ([+], [*]) and the builtin
      [float] are parameters, so the general theorems hold whatever the
      rounding is.  NaN, which the program can only reach through
      overflowing literals (as in [1e999]), is not a value of [F].
    - A raised exception, and a loop that never ends, are results of their
      own ([Raise], [Hang]); loops that the source writes with [while] are
      run with fuel, and the amount given is proved to be enough. *)

From Stdlib Require Import Ascii String ZArith QArith Qcanon.
From stdpp Require Import base decidable option list strings gmap.

Local Open Scope string_scope.
Local Open Scope list_scope.

(** ** Characters and the [re] character classes *)

Module Chars.

Definition code (c : ascii) : nat := nat_of_ascii c.

(** [\d] on code points below 256. *)
Definition is_digit (c : ascii) : bool :=
  (48 <=? code c)%nat && (code c <=? 57)%nat.

(** [\s], and the characters [str.strip] removes: the code points below
    256 for which [str.isspace] holds. *)
Definition is_space (c : ascii) : bool :=
  ((9 <=? code c)%nat && (code c <=? 13)%nat)
  || ((28 <=? code c)%nat && (code c <=? 32)%nat)
  || (code c =? 133)%nat || (code c =? 160)%nat.

(** [[+-]] *)
Definition is_sign (c : ascii) : bool :=
  match c with "+"%char | "-"%char => true | _ => false end.

(** [[eE]] *)
Definition is_exp (c : ascii) : bool :=
  match c with "e"%char | "E"%char => true | _ => false end.

(** [[MmLlHhVvZz]] *)
Definition is_cmd (c : ascii) : bool :=
  match c with
  | "M"%char | "m"%char | "L"%char | "l"%char | "H"%char | "h"%char
  | "V"%char | "v"%char | "Z"%char | "z"%char => true
  | _ => false
  end.

(** [[,\s]] *)
Definition is_sep (c : ascii) : bool :=
  match c with ","%char => true | _ => is_space c end.

End Chars.

(** ** Strings: the [str] methods the program calls *)

Module Str.

(** The longest prefix whose characters all satisfy [p], and the rest. *)
Fixpoint span (p : ascii → bool) (s : string) : string * string :=
  match s with
  | String c s' =>
      if p c then let '(a, b) := span p s' in (String c a, b) else ("", s)
  | EmptyString => ("", "")
  end.

(** Every character of [s] satisfies [p]. *)
Fixpoint all (p : ascii → bool) (s : string) : bool :=
  match s with
  | String c s' => p c && all p s'
  | EmptyString => true
  end.

(** [s] starts with a character that satisfies [p]. *)
Definition starts (p : ascii → bool) (s : string) : bool :=
  match s with
  | String c _ => p c
  | EmptyString => false
  end.

Definition lstrip (s : string) : string := snd (span Chars.is_space s).

(** [s.strip()] *)
Definition strip (s : string) : string :=
  String.rev (lstrip (String.rev (lstrip s))).

(** [s] without its prefix [p], when [s] starts with [p]. *)
Fixpoint strip_prefix (p s : string) : option string :=
  match p, s with
  | EmptyString, _ => Some s
  | String a p', String b s' => if decide (a = b) then strip_prefix p' s' else None
  | String _ _, EmptyString => None
  end.

(** [s.startswith(p)] *)
Definition startswith (p s : string) : bool := bool_decide (is_Some (strip_prefix p s)).

(** [s.endswith(p)] *)
Definition endswith (p s : string) : bool := startswith (String.rev p) (String.rev s).

(** [c in s] for a one-character [c] *)
Fixpoint contains (c : ascii) (s : string) : bool :=
  match s with
  | String d s' => if decide (c = d) then true else contains c s'
  | EmptyString => false
  end.

(** The text before the first [c] and, when there is a [c], the text
    after it. *)
Fixpoint cut (c : ascii) (s : string) : string * option string :=
  match s with
  | String d s' =>
      if decide (c = d) then ("", Some s')
      else let '(a, r) := cut c s' in (String d a, r)
  | EmptyString => ("", None)
  end.

(** [s.split(c)] for a one-character separator: always at least one
    piece. *)
Fixpoint split_go (c : ascii) (cur : string) (s : string) : list string :=
  match s with
  | String d s' =>
      if decide (c = d) then String.rev cur :: split_go c "" s'
      else split_go c (String d cur) s'
  | EmptyString => [String.rev cur]
  end.

Definition split (c : ascii) (s : string) : list string := split_go c "" s.

(** [s.split(c, 1)]: cut at the first [c] only. *)
Definition split1 (c : ascii) (s : string) : list string :=
  match cut c s with
  | (a, Some b) => [a; b]
  | (a, None) => [a]
  end.

(** [s.split()]: the maximal runs of characters that are not white
    space. *)
Fixpoint fields_go (cur : string) (s : string) : list string :=
  match s with
  | String d s' =>
      if Chars.is_space d
      then (if decide (cur = "") then [] else [String.rev cur]) ++ fields_go "" s'
      else fields_go (String d cur) s'
  | EmptyString => if decide (cur = "") then [] else [String.rev cur]
  end.

Definition fields (s : string) : list string := fields_go "" s.

End Str.

(** ** The regular expressions of the program

    Each pattern is scanned the way [re] scans it: leftmost match, greedy
    repetitions, the first alternative that succeeds.  In these patterns a
    greedy choice that fails is never repaired by a shorter one (what a
    repetition would give back is a character the next item cannot take), so
    the scanners below commit to each greedy choice.  A matcher returns the
    matched text and the rest of the subject. *)

Module Re.

(** [[+-]?] *)
Definition opt_sign (s : string) : string * string :=
  match s with
  | String c s' => if Chars.is_sign c then (String c "", s') else ("", s)
  | EmptyString => ("", "")
  end.

(** [\d+] *)
Definition digits1 (s : string) : option (string * string) :=
  let '(d, r) := Str.span Chars.is_digit s in
  if decide (d = "") then None else Some (d, r).

(** The optional fraction of [num]: a dot and the digits after it (there
    may be none), if there is a dot. *)
Definition opt_fraction (s : string) : string * string :=
  match s with
  | String "."%char s' =>
      let '(d, r) := Str.span Chars.is_digit s' in (String "."%char d, r)
  | _ => ("", s)
  end.

(** The mantissa of [num]: digits with an optional fraction or, failing
    that, a dot and at least one digit. *)
Definition mantissa (s : string) : option (string * string) :=
  match digits1 s with
  | Some (d, r) => let '(f, r') := opt_fraction r in Some (d +:+ f, r')
  | None =>
      match s with
      | String "."%char s' =>
          match digits1 s' with
          | Some (d, r) => Some (String "."%char d, r)
          | None => None
          end
      | _ => None
      end
  end.

(** The optional exponent of [num], ["(?:[eE][+-]?\d+)?"]. *)
Definition opt_exponent (s : string) : string * string :=
  match s with
  | String c s' =>
      if Chars.is_exp c then
        let '(sg, r) := opt_sign s' in
        match digits1 r with
        | Some (d, r') => (String c (sg +:+ d), r')
        | None => ("", s)
        end
      else ("", s)
  | EmptyString => ("", "")
  end.

(** [num] at the start of [s]: an optional sign, the mantissa, an
    optional exponent. *)
Definition num (s : string) : option (string * string) :=
  let '(sg, r) := opt_sign s in
  match mantissa r with
  | Some (m, r') => let '(e, r'') := opt_exponent r' in Some (sg +:+ m +:+ e, r'')
  | None => None
  end.

(** [re.fullmatch(num, s)] *)
Definition fullmatch_num (s : string) : bool :=
  match num s with
  | Some (_, "") => true
  | _ => false
  end.

(** The strings [num] matches in full, by their parts. *)
Inductive sign_of : string → Prop :=
  | sign_none : sign_of ""
  | sign_some c : Chars.is_sign c = true → sign_of (String c "").

Inductive mantissa_of : string → Prop :=
  | mantissa_int d :
      d ≠ "" → Str.all Chars.is_digit d = true → mantissa_of d
  | mantissa_fraction d d' :
      d ≠ "" → Str.all Chars.is_digit d = true → Str.all Chars.is_digit d' = true →
      mantissa_of (d +:+ String "."%char d')
  | mantissa_dot d :
      d ≠ "" → Str.all Chars.is_digit d = true → mantissa_of (String "."%char d).

Inductive exponent_of : string → Prop :=
  | exponent_none : exponent_of ""
  | exponent_some c sg d :
      Chars.is_exp c = true → sign_of sg →
      d ≠ "" → Str.all Chars.is_digit d = true →
      exponent_of (String c (sg +:+ d)).

Inductive literal : string → Prop :=
  | literal_parts sg m e :
      sign_of sg → mantissa_of m → exponent_of e → literal (sg +:+ m +:+ e).

(** What may follow a literal without being taken into it: nothing, or a
    character that is no digit, no dot and no exponent mark. *)
Definition inert (s : string) : bool :=
  match s with
  | String c _ =>
      negb (Chars.is_digit c) && negb (bool_decide (c = "."%char)) && negb (Chars.is_exp c)
  | EmptyString => true
  end.

(** [re.fullmatch] of ["[MmLlHhVvZz]"] on [t]. *)
Definition fullmatch_cmd (t : string) : bool :=
  match t with
  | String c "" => Chars.is_cmd c
  | _ => false
  end.

(** [CMD = [MmLlHhVvZz]|num] at the start of [s]. *)
Definition CMD (s : string) : option (string * string) :=
  match s with
  | String c s' => if Chars.is_cmd c then Some (String c "", s') else num s
  | EmptyString => None
  end.

(** [findall] and [finditer]: the matches of [m] over [s] from left to
    right; after a match the scan resumes behind it, otherwise one
    character further.  No match of the patterns here is empty, so a scan
    takes at most one round for each character (see [scan_fuel]). *)
Fixpoint scan_fuel {A} (m : string → option (A * string)) (fuel : nat) (s : string)
    : list A :=
  match fuel with
  | O => []
  | S fuel' =>
      match s with
      | EmptyString => []
      | String _ s' =>
          match m s with
          | Some (x, rest) => x :: scan_fuel m fuel' rest
          | None => scan_fuel m fuel' s'
          end
      end
  end.

Definition scan {A} (m : string → option (A * string)) (s : string) : list A :=
  scan_fuel m (String.length s) s.

(** A matcher whose matches are never empty leaves a shorter rest. *)
Definition consumes {A} (m : string → option (A * string)) : Prop :=
  ∀ s x rest, m s = Some (x, rest) → (String.length rest < String.length s)%nat.

(** [CMD.findall(s)] *)
Definition findall_CMD (s : string) : list string := scan CMD s.

(** [[,\s]+] *)
Definition seps1 (s : string) : option (string * string) :=
  let '(d, r) := Str.span Chars.is_sep s in
  if decide (d = "") then None else Some (d, r).

(** ["(num)[,\s]+(num)"] at the start of [s]: the two groups and the
    rest. *)
Definition pair (s : string) : option ((string * string) * string) :=
  match num s with
  | Some (a, r) =>
      match seps1 r with
      | Some (_, r') =>
          match num r' with
          | Some (b, r'') => Some ((a, b), r'')
          | None => None
          end
      | None => None
      end
  | None => None
  end.

(** [re.findall] of that pattern over [s]. *)
Definition findall_pair (s : string) : list (string * string) := scan pair s.

(** ["(translate|scale)"] *)
Definition kind (s : string) : option (string * string) :=
  match Str.strip_prefix "translate" s with
  | Some r => Some ("translate", r)
  | None =>
      match Str.strip_prefix "scale" s with
      | Some r => Some ("scale", r)
      | None => None
      end
  end.

(** ["(translate|scale)\s*\(([^)]+)\)"] at the start of [s]: the two
    groups and the rest. *)
Definition call (s : string) : option ((string * string) * string) :=
  match kind s with
  | Some (k, r) =>
      match Str.lstrip r with
      | String "("%char r' =>
          match Str.span (λ c, negb (bool_decide (c = ")"%char))) r' with
          | (String a args, String ")"%char r'') => Some ((k, String a args), r'')
          | _ => None
          end
      | _ => None
      end
  | None => None
  end.

(** [re.finditer] of that pattern over [s]: the groups of each match. *)
Definition finditer_call (s : string) : list (string * string) := scan call s.

(** [re.split] of ["[,\s]+"] over [s]: the pieces between the runs of separators,
    the empty ones at either end included. *)
Fixpoint split_seps_go (cur : string) (in_sep : bool) (s : string) : list string :=
  match s with
  | String c s' =>
      if Chars.is_sep c
      then (if in_sep then [] else [String.rev cur]) ++ split_seps_go "" true s'
      else split_seps_go (String c cur) false s'
  | EmptyString => [String.rev cur]
  end.

Definition split_seps (s : string) : list string := split_seps_go "" false s.

End Re.

(** ** Results of a call *)

(** The exceptions of the program: all three are [ValueError]s. *)
Inductive exn : Type :=
  | UnexpectedEndOfData
      (* ValueError("Unexpected end of path data") *)
  | UnsupportedCommand (cmd : option string)
      (* ValueError(f"Unsupported path command: {cmd}") *)
  | FloatError (s : string).
      (* the ValueError of float(s) *)

(** A call returns, raises, or never comes back. *)
Inductive res (A : Type) : Type :=
  | Ret (a : A)
  | Raise (e : exn)
  | Hang.
Arguments Ret {A} a.
Arguments Raise {A} e.
Arguments Hang {A}.

Global Instance exn_eq_dec : EqDecision exn.
Proof. solve_decision. Defined.

Global Instance res_eq_dec `{EqDecision A} : EqDecision (res A).
Proof. solve_decision. Defined.

Global Instance res_ret : MRet res := @Ret.
Global Instance res_bind : MBind res := λ A B f m,
  match m with
  | Ret a => f a
  | Raise e => Raise e
  | Hang => Hang
  end.

(** ** Numbers *)

(** What the program needs of Python's [float]s. *)
Class Number (F : Type) : Type := {
  number_eq_dec :: EqDecision F;   (* [==] and [!=] *)
  float : string → option F;       (* [float(s)]; [None] when it raises *)
  fzero : F;                       (* [0.0] *)
  fone : F;                        (* [1.0] *)
  fadd : F → F → F;                (* [+] *)
  fmul : F → F → F;                (* [*] *)
}.

(** ** The path data interpreter *)

Section Path.

Context {F : Type} `{Number F}.

(** A point is a two-element list [[x, y]]. *)
Definition point : Type := F * F.

(** [float(s)] as a call. *)
Definition to_float (s : string) : res F :=
  match float s with
  | Some v => Ret v
  | None => Raise (FloatError s)
  end.

(** [readnum()]; the remaining tokens [tokens[i:]] stand for the index
    [i]. *)
Definition readnum (toks : list string) : res (F * list string) :=
  match toks with
  | [] => Raise UnexpectedEndOfData
  | t :: toks' => v ← to_float t; mret (v, toks')
  end.

(** [l[-1]] of a list known to be non-empty. *)
Definition last_of {A} (l : list A) (d : A) : A := List.last l d.

(** [polys[-1].append(pt)] *)
Fixpoint append_last (polys : list (list point)) (pt : point) : list (list point) :=
  match polys with
  | [] => []
  | [poly] => [poly ++ [pt]]
  | poly :: polys' => poly :: append_last polys' pt
  end.

(** The variables of [path_to_points] that live across iterations of its
    main loop. *)
Record state : Type := State {
  cur : point;
  start : option point;
  polys : list (list point);
  cmd : option string;
}.

Global Instance state_eq_dec : EqDecision state.
Proof. solve_decision. Defined.

(** The loop of lines 81-90: the pairs that follow a moveto.  The two
    [readnum()] calls of its body are written out, the first one knowing
    that a token is there. *)
Fixpoint moveto_pairs (rel : bool) (current_poly : list point) (cur : point)
    (toks : list string) : res (list point * point * list string) :=
  match toks with
  | [] => Ret (current_poly, cur, toks)
  | t :: toks1 =>
      if Re.fullmatch_cmd t then Ret (current_poly, cur, toks)
      else
        match to_float t with
        | Ret x =>
            match toks1 with
            | [] => Raise UnexpectedEndOfData
            | t' :: toks2 =>
                match to_float t' with
                | Ret y =>
                    let prev := last_of current_poly cur in
                    let nxt := if rel then (fadd prev.1 x, fadd prev.2 y) else (x, y) in
                    moveto_pairs rel (current_poly ++ [nxt]) nxt toks2
                | Raise e => Raise e
                | Hang => Hang
                end
            end
        | Raise e => Raise e
        | Hang => Hang
        end
  end.

(** The loop of lines 98-103: the pairs of a lineto. *)
Fixpoint lineto_pairs (rel : bool) (polys : list (list point)) (cur : point)
    (toks : list string) : res (list (list point) * point * list string) :=
  match toks with
  | [] => Ret (polys, cur, toks)
  | t :: toks1 =>
      if Re.fullmatch_cmd t then Ret (polys, cur, toks)
      else
        match to_float t with
        | Ret x =>
            match toks1 with
            | [] => Raise UnexpectedEndOfData
            | t' :: toks2 =>
                match to_float t' with
                | Ret y =>
                    let nxt := if rel then (fadd cur.1 x, fadd cur.2 y) else (x, y) in
                    lineto_pairs rel (append_last polys nxt) nxt toks2
                | Raise e => Raise e
                | Hang => Hang
                end
            end
        | Raise e => Raise e
        | Hang => Hang
        end
  end.

(** The loop of lines 109-113: the abscissas of a horizontal lineto. *)
Fixpoint hlineto_nums (rel : bool) (polys : list (list point)) (cur : point)
    (toks : list string) : res (list (list point) * point * list string) :=
  match toks with
  | [] => Ret (polys, cur, toks)
  | t :: toks1 =>
      if Re.fullmatch_cmd t then Ret (polys, cur, toks)
      else
        match to_float t with
        | Ret x =>
            let nxt := if rel then (fadd cur.1 x, cur.2) else (x, cur.2) in
            hlineto_nums rel (append_last polys nxt) nxt toks1
        | Raise e => Raise e
        | Hang => Hang
        end
  end.

(** The loop of lines 119-123: the ordinates of a vertical lineto. *)
Fixpoint vlineto_nums (rel : bool) (polys : list (list point)) (cur : point)
    (toks : list string) : res (list (list point) * point * list string) :=
  match toks with
  | [] => Ret (polys, cur, toks)
  | t :: toks1 =>
      if Re.fullmatch_cmd t then Ret (polys, cur, toks)
      else
        match to_float t with
        | Ret y =>
            let nxt := if rel then (cur.1, fadd cur.2 y) else (cur.1, y) in
            vlineto_nums rel (append_last polys nxt) nxt toks1
        | Raise e => Raise e
        | Hang => Hang
        end
  end.

(** [cmd in (a, b)] *)
Definition cmd_in (c : option string) (a b : string) : bool :=
  bool_decide (c = Some a) || bool_decide (c = Some b).

(** The values [cmd] takes: [None], or a token that is a command letter. *)
Definition known_cmd (c : option string) : Prop :=
  c = None ∨ ∃ t, c = Some t ∧ Re.fullmatch_cmd t = true.

(** [if not polys: polys.append([cur[:]])] *)
Definition ensure_poly (polys : list (list point)) (cur : point) : list (list point) :=
  match polys with
  | [] => [[cur]]
  | _ => polys
  end.

(** The closepath branch, lines 126-136. *)
Definition closepath (st : state) (c : option string) : state :=
  match last (polys st) with
  | Some (first :: _ as poly) =>
      let polys' :=
        if decide (first ≠ last_of poly first)
        then append_last (polys st) first
        else polys st in
      let cur' :=
        match last polys' with
        | Some poly' => last_of poly' first
        | None => first
        end in
      State cur' None polys' c
  | _ => State (cur st) None (polys st) c
  end.

(** One iteration of the main loop, lines 64-139, entered with
    [tokens[i:] = t :: toks]: the state and the tokens left when the
    iteration ends. *)
Definition step (st : state) (t : string) (toks : list string)
    : res (state * list string) :=
  let '(c, toks1) :=
    if Re.fullmatch_cmd t then (Some t, toks) else (cmd st, t :: toks) in
  if cmd_in c "M" "m" then
    '(x, toks2) ← readnum toks1;
    '(y, toks3) ← readnum toks2;
    let rel := bool_decide (c = Some "m") in
    let cur1 := if rel then (fadd (cur st).1 x, fadd (cur st).2 y) else (x, y) in
    '(current_poly, cur2, toks4) ← moveto_pairs rel [cur1] cur1 toks3;
    mret (State cur2 (Some cur1) (polys st ++ [current_poly]) c, toks4)
  else if cmd_in c "L" "l" then
    '(polys', cur', toks2) ←
      lineto_pairs (bool_decide (c = Some "l")) (ensure_poly (polys st) (cur st)) (cur st) toks1;
    mret (State cur' (start st) polys' c, toks2)
  else if cmd_in c "H" "h" then
    '(polys', cur', toks2) ←
      hlineto_nums (bool_decide (c = Some "h")) (ensure_poly (polys st) (cur st)) (cur st) toks1;
    mret (State cur' (start st) polys' c, toks2)
  else if cmd_in c "V" "v" then
    '(polys', cur', toks2) ←
      vlineto_nums (bool_decide (c = Some "v")) (ensure_poly (polys st) (cur st)) (cur st) toks1;
    mret (State cur' (start st) polys' c, toks2)
  else if cmd_in c "Z" "z" then
    mret (closepath st c, toks1)
  else
    Raise (UnsupportedCommand c).

(** The main loop [while i < len(tokens)], run for at most [fuel]
    iterations. *)
Fixpoint run (fuel : nat) (st : state) (toks : list string) : res state :=
  match toks with
  | [] => Ret st
  | t :: toks' =>
      match fuel with
      | O => Hang
      | S fuel' =>
          match step st t toks' with
          | Ret (st', toks'') => run fuel' st' toks''
          | Raise e => Raise e
          | Hang => Hang
          end
      end
  end.

(** The body of the closing pass, lines 143-144. *)
Definition close_ring (poly : list point) : list point :=
  match poly with
  | first :: _ => if decide (first ≠ last_of poly first) then poly ++ [first] else poly
  | [] => poly
  end.

Definition initial : state := State (fzero, fzero) None [] None.

(** The command letters [c] and the numbers [nums] behind them at the end
    of the tokens for which [readnum()] is called with no token left: a
    moveto with no number or an odd count of them, a lineto with an odd
    count. *)
Definition ends_short (c : string) (nums : list string) : Prop :=
  (c ∈ ["M"; "m"] ∧ (nums = [] ∨ Nat.odd (length nums) = true))
  ∨ (c ∈ ["L"; "l"] ∧ Nat.odd (length nums) = true).

(** Lines 49-139: the main loop over the tokens of [dstr].  An iteration
    that returns has consumed a token unless it is a closepath standing
    before a number, so one iteration for each token is all a run that ends
    can take (see [run_fuel] and [run_hangs]). *)
Definition main_loop (dstr : string) : res state :=
  let tokens := Re.findall_CMD dstr in
  run (length tokens) initial tokens.

(** [path_to_points(dstr)]: the main loop, then the closing pass of lines
    142-144 over the subpaths it leaves. *)
Definition path_to_points (dstr : string) : res (list (list point)) :=
  st ← main_loop dstr;
  mret (close_ring <$> polys st).

End Path.

(** ** Polygons, transforms and the output form *)

Section Geometry.

Context {F : Type} `{Number F}.

(** The loop of lines 150-151 over the matched pairs. *)
Fixpoint pairs_to_points (pairs : list (string * string)) : res (list (@point F)) :=
  match pairs with
  | [] => mret []
  | (a, b) :: pairs' =>
      x ← to_float a;
      y ← to_float b;
      pts ← pairs_to_points pairs';
      mret ((x, y) :: pts)
  end.

(** [polygon_points_attr_to_list(s)] *)
Definition polygon_points_attr_to_list (s : string) : res (list (@point F)) :=
  pts ← pairs_to_points (Re.findall_pair (Str.strip s));
  mret (close_ring pts).

(** The accumulated [sx, sy, tx, ty] of lines 226-227. *)
Record transform : Type := Transform { sx : F; sy : F; tx : F; ty : F }.

Global Instance transform_eq_dec : EqDecision transform.
Proof. solve_decision. Defined.

Definition identity : transform := Transform fone fone fzero fzero.

(** [[float(x) for x in re.split(r"[,\s]+", group2.strip()) if x]] *)
Fixpoint floats (pieces : list string) : res (list F) :=
  match pieces with
  | [] => mret []
  | x :: pieces' =>
      if decide (x = "") then floats pieces'
      else v ← to_float x; vs ← floats pieces'; mret (v :: vs)
  end.

Definition call_args (group2 : string) : res (list F) :=
  floats (Re.split_seps (Str.strip group2)).

(** Lines 234-246: what one [translate] or [scale] call does to the
    accumulators. *)
Definition accumulate (tr : transform) (kind : string) (args : list F) : transform :=
  if decide (kind = "translate") then
    match args with
    | [] => tr
    | [a] => Transform (sx tr) (sy tr) (fadd (tx tr) a) (ty tr)
    | a :: b :: _ => Transform (sx tr) (sy tr) (fadd (tx tr) a) (fadd (ty tr) b)
    end
  else if decide (kind = "scale") then
    match args with
    | [] => tr
    | [a] => Transform (fmul (sx tr) a) (fmul (sy tr) a) (tx tr) (ty tr)
    | a :: b :: _ => Transform (fmul (sx tr) a) (fmul (sy tr) b) (tx tr) (ty tr)
    end
  else tr.

(** The loop of line 229 over the calls found, in their textual order. *)
Fixpoint accumulate_calls (tr : transform) (items : list (string * string)) : res transform :=
  match items with
  | [] => mret tr
  | (kind, group2) :: items' =>
      args ← call_args group2;
      accumulate_calls (accumulate tr kind args) items'
  end.

(** Lines 225-246: the transform of an element's own [transform]
    attribute [t]. *)
Definition own_transform (t : option string) : res transform :=
  match t with
  | Some t => accumulate_calls identity (Re.finditer_call t)
  | None => mret identity
  end.

(** [apply_simple_transform(points, sx, sy, tx, ty)] *)
Definition apply_simple_transform (points : list (@point F)) (tr : transform)
    : list (@point F) :=
  (λ p : point, (fadd (fmul (sx tr) p.1) (tx tr), fadd (fmul (sy tr) p.2) (ty tr)))
    <$> points.

(** Lines 251-252: [pts[:-1]] when [pts] is not empty and
    [pts[0] == pts[-1]]. *)
Definition drop_closing (pts : list (@point F)) : list (@point F) :=
  match pts with
  | first :: _ => if decide (first = last_of pts first) then removelast pts else pts
  | [] => pts
  end.

(** The loop of lines 248-253: the polygons one element adds to
    [all_polys]. *)
Definition emit (tr : transform) (polys : list (list (@point F))) : list (list (@point F)) :=
  (λ poly, drop_closing (apply_simple_transform poly tr)) <$> polys.

End Geometry.

(** ** The document *)

Set Warnings "-register-all".

(** An element: its tag, its attribute dictionary, its children. *)
Inductive element : Type :=
  Element (tag : string) (attrib : gmap string string) (children : list element).

Definition tag (el : element) : string := let 'Element t _ _ := el in t.
Definition attrib (el : element) : gmap string string := let 'Element _ a _ := el in a.
Definition children (el : element) : list element := let 'Element _ _ c := el in c.

(** [el.get(k)] *)
Definition get (el : element) (k : string) : option string := attrib el !! k.

(** [el.iter()]: the element and its descendants in document order. *)
Fixpoint iter (el : element) : list element :=
  match el with
  | Element _ _ cs => el :: flat_map iter cs
  end.

(** [root.findall(".//" + t)]: the descendants of [root] whose tag is [t],
    in document order. *)
Definition findall (root : element) (t : string) : list element :=
  filter (λ el, tag el = t) (flat_map iter (children root)).

Definition svg_path : string := "{http://www.w3.org/2000/svg}path".
Definition svg_polygon : string := "{http://www.w3.org/2000/svg}polygon".
Definition ink_label : string := "{http://www.inkscape.org/namespaces/inkscape}label".

(** The test of lines 165-170, the same at lines 172-177. *)
Definition selected (key val : string) (el : element) : bool :=
  if bool_decide (key = "id") && bool_decide (get el "id" = Some val) then true
  else if bool_decide (key = "class")
          && bool_decide (val ∈ Str.fields (default "" (get el "class"))) then true
  else if bool_decide (key = "label") && bool_decide (get el ink_label = Some val) then true
  else false.

(** [select_elements(root, key, val)] *)
Definition select_elements (root : element) (key val : string) : list element :=
  filter (λ el, selected key val el = true) (findall root svg_path)
  ++ filter (λ el, selected key val el = true) (findall root svg_polygon).

(** ** The program *)

(** What [main] prints. *)
Inductive message : Type :=
  | Usage
  | BadSelect
  | NothingMatched (key val : string)
  | SkippingPath (ex : exn)
  | Wrote (outp : string) (n : nat).

(** How a run ends. *)
Inductive ending (F : Type) : Type :=
  | Exit (code : nat)                 (* sys.exit(code) *)
  | ParseError                        (* ET.parse raised *)
  | Uncaught (ex : exn)               (* a ValueError nobody catches *)
  | Forever                           (* the run never ends *)
  | Done (outp : string) (all_polys : list (list (F * F))).
      (* {"polygons": all_polys} was dumped to outp *)
Arguments Exit {F} code.
Arguments ParseError {F}.
Arguments Uncaught {F} ex.
Arguments Forever {F}.
Arguments Done {F} outp all_polys.

Record outcome (F : Type) : Type := Outcome {
  stdout : list message;
  final : ending F;
}.
Arguments Outcome {F} stdout final.
Arguments stdout {F} o.
Arguments final {F} o.

Global Instance message_eq_dec : EqDecision message.
Proof. solve_decision. Defined.

Global Instance ending_eq_dec `{EqDecision F} : EqDecision (ending F).
Proof. solve_decision. Defined.

Global Instance outcome_eq_dec `{EqDecision F} : EqDecision (outcome F).
Proof. solve_decision. Defined.

(** Lines 188-195: the selector of the command line, [None] when the program
    prints its complaint and exits with status 2. *)
Definition parse_select (argv : list string) : option (option string * option string) :=
  match argv !! 3%nat with
  | Some arg =>
      if Str.startswith "--select" arg then
        match Str.split "="%char arg !! 1%nat with
        | Some kv =>
            match (if Str.contains "="%char kv then Str.split1 "="%char kv
                   else Str.split1 ":"%char kv) with
            | [key; val] => Some (Some key, Some val)
            | _ => None
            end
        | None => None
        end
      else Some (None, None)
  | None => Some (None, None)
  end.

(** The truth value of an optional string. *)
Definition truthy (s : option string) : bool :=
  match s with
  | Some (String _ _) => true
  | _ => false
  end.

(** Lines 200-208: the elements to process and the warning printed on the
    way. *)
Definition choose_elements (root : element) (key val : option string)
    : list message * list element :=
  let '(warning, elems) :=
    if truthy key && truthy val then
      let elems := select_elements root (default "" key) (default "" val) in
      (match elems with
       | [] => [NothingMatched (default "" key) (default "" val)]
       | _ => []
       end, elems)
    else ([], []) in
  (warning,
   match elems with
   | [] => findall root svg_path ++ findall root svg_polygon
   | _ => elems
   end).

Section Main.

Context {F : Type} `{Number F}.

(** The loop of lines 211-253 over the elements left, with what has been
    printed and collected so far; then lines 255-257. *)
Fixpoint process (outp : string) (elems : list element) (out : list message)
    (all_polys : list (list (@point F))) : outcome F :=
  match elems with
  | [] => Outcome (out ++ [Wrote outp (length all_polys)]) (Done outp all_polys)
  | el :: elems' =>
      let transformed (polys : list (list (@point F))) :=
        match own_transform (get el "transform") with
        | Ret tr => process outp elems' out (all_polys ++ emit tr polys)
        | Raise ex => Outcome out (Uncaught ex)
        | Hang => Outcome out Forever
        end in
      if Str.endswith "path" (tag el) && truthy (get el "d") then
        match path_to_points (default "" (get el "d")) with
        | Ret polys => transformed polys
        | Raise ex => process outp elems' (out ++ [SkippingPath ex]) all_polys
        | Hang => Outcome out Forever
        end
      else if Str.endswith "polygon" (tag el) && truthy (get el "points") then
        match polygon_points_attr_to_list (default "" (get el "points")) with
        | Ret poly => transformed [poly]
        | Raise ex => Outcome out (Uncaught ex)
        | Hang => Outcome out Forever
        end
      else process outp elems' out all_polys
  end.

(** [main()], given [sys.argv] and what [ET.parse(inp).getroot()] gives for
    each path ([None] when it raises). *)
Definition main (argv : list string) (parse : string → option element) : outcome F :=
  match argv with
  | _ :: inp :: outp :: _ =>
      match parse_select argv with
      | Some (key, val) =>
          match parse inp with
          | Some root =>
              let '(warning, elems) := choose_elements root key val in
              process outp elems warning []
          | None => Outcome [] ParseError
          end
      | None => Outcome [BadSelect] (Exit 2)
      end
  | _ => Outcome [Usage] (Exit 1)
  end.

End Main.

(** ** Exact numbers

    An instance of [Number] on the rationals: a literal of the [num] grammar
    denotes its decimal value and the arithmetic is exact.  It computes what
    binary64 computes whenever every value met is a binary64 number, as are
    the small integers of the examples below. *)

Module Exact.

Definition digit_value (c : ascii) : Z := Z.of_nat (Chars.code c) - 48.

(** The integer a string of digits denotes, after the digits [acc] already
    read. *)
Fixpoint digits_value (acc : Z) (s : string) : Z :=
  match s with
  | String c s' => digits_value (10 * acc + digit_value c) s'
  | EmptyString => acc
  end.

Definition signed (sg : string) (z : Z) : Z :=
  match sg with
  | String "-"%char _ => (- z)%Z
  | _ => z
  end.

(** The value of a literal [sign int . frac e exp]:
    [sign (int frac) * 10 ^ (exp - |frac|)]. *)
Definition literal_value (s : string) : Q :=
  let '(sg, r) := Re.opt_sign s in
  let '(int, r) := Str.span Chars.is_digit r in
  let '(frac, r) :=
    match r with
    | String "."%char r' => Str.span Chars.is_digit r'
    | _ => ("", r)
    end in
  let exp :=
    match r with
    | String _ r' =>
        let '(esg, r'') := Re.opt_sign r' in
        signed esg (digits_value 0 (fst (Str.span Chars.is_digit r'')))
    | EmptyString => 0%Z
    end in
  let m := signed sg (digits_value (digits_value 0 int) frac) in
  let e := (exp - Z.of_nat (String.length frac))%Z in
  match e with
  | Zneg p => Qmake m (10 ^ p)
  | _ => Qmake (m * 10 ^ e) 1
  end.

(** [float(s)] on the literals of the [num] grammar. *)
Definition float_of_literal (s : string) : option Qc :=
  if Re.fullmatch_num s then Some (Q2Qc (literal_value s)) else None.

Global Instance number : Number Qc := {|
  number_eq_dec := Qc_eq_dec;
  float := float_of_literal;
  fzero := Q2Qc 0;
  fone := Q2Qc 1;
  fadd := Qcplus;
  fmul := Qcmult;
|}.

(** The point with integer coordinates [x] and [y]. *)
Definition pt (x y : Z) : @point Qc := (Q2Qc (inject_Z x), Q2Qc (inject_Z y)).

End Exact.

(** ** Attribute texts

    The texts of a [points] and of a [transform] attribute, built from
    their parts. *)

Module Text.

(** A pair [a sep b] and the separators [gap] behind it. *)
Record pair_item : Type := PairItem { px : string; psep : string; py : string; pgap : string }.

(** [a1 sep1 b1 gap1 a2 sep2 b2 gap2 ...] *)
Fixpoint points_text (items : list pair_item) : string :=
  match items with
  | [] => ""
  | item :: items' => px item +:+ psep item +:+ py item +:+ pgap item +:+ points_text items'
  end.

(** The two numbers are literals, separators stand between them, and
    separators stand before the next pair if there is one. *)
Fixpoint points_wf (items : list pair_item) : Prop :=
  match items with
  | [] => True
  | item :: items' =>
      Re.literal (px item) ∧ Re.literal (py item)
      ∧ psep item ≠ "" ∧ Str.all Chars.is_sep (psep item) = true
      ∧ Str.all Chars.is_sep (pgap item) = true
      ∧ (items' ≠ [] → pgap item ≠ "")
      ∧ points_wf items'
  end.

Definition pairs_of (items : list pair_item) : list (string * string) :=
  (λ item, (px item, py item)) <$> items.

(** A call [kind(args)] and the separators [gap] behind it. *)
Record call_item : Type := CallItem { ckind : string; cargs : string; cgap : string }.

(** [kind1(args1) gap1 kind2(args2) gap2 ...] *)
Fixpoint calls_text (items : list call_item) : string :=
  match items with
  | [] => ""
  | item :: items' =>
      ckind item +:+ String "("%char (cargs item +:+ String ")"%char (cgap item +:+ calls_text items'))
  end.

Definition call_wf (item : call_item) : Prop :=
  (ckind item = "translate" ∨ ckind item = "scale")
  ∧ cargs item ≠ ""
  ∧ Str.all (λ c, negb (bool_decide (c = ")"%char))) (cargs item) = true
  ∧ Str.all Chars.is_sep (cgap item) = true.

Definition calls_of (items : list call_item) : list (string * string) :=
  (λ item, (ckind item, cargs item)) <$> items.

End Text.

(** ** Sample documents *)

Module Sample.

(** [<svg>children</svg>] *)
Definition svg (children : list element) : element :=
  Element "{http://www.w3.org/2000/svg}svg" ∅ children.

(** [<path d=.../>] *)
Definition path (d : string) : element := Element svg_path {[ "d" := d ]} [].

(** [<polygon points=.../>] *)
Definition polygon (points : string) : element :=
  Element svg_polygon {[ "points" := points ]} [].

(** A file system with the one document [root]. *)
Definition only (root : element) : string → option element := λ _, Some root.

End Sample.

(** ** The transform chain *)

Section Chain.

Context {F : Type} `{Number F}.

(** The loop of [parse_transform_chain], lines 12-35, over [chain]: the
    element and then what each [getparent()] returns.  An element of
    [xml.etree.ElementTree], the only kind [main] builds, has no
    [getparent], and its chain is the element alone. *)
Fixpoint transform_chain_loop (tr : @transform F) (chain : list element) : res (@transform F) :=
  match chain with
  | [] => mret tr
  | el :: chain' =>
      tr' ← (if truthy (get el "transform")
             then accumulate_calls tr (Re.finditer_call (default "" (get el "transform")))
             else mret tr);
      transform_chain_loop tr' chain'
  end.

(** [parse_transform_chain(el)], as [(sx, sy, tx, ty)]. *)
Definition parse_transform_chain (chain : list element) : res (@transform F) :=
  transform_chain_loop identity chain.

(** The calls of the [transform] attributes along [chain], innermost
    element first. *)
Definition chain_calls (chain : list element) : list (string * string) :=
  flat_map (λ el, Re.finditer_call (default "" (get el "transform"))) chain.

End Chain.

(** ** Counting *)

(** [t] is a moveto letter. *)
Definition is_moveto (t : string) : bool := cmd_in (Some t) "M" "m".

(** The tokens are over, or a command letter comes next. *)
Definition at_command (toks : list string) : Prop :=
  match toks with
  | [] => True
  | t :: _ => Re.fullmatch_cmd t = true
  end.

(** What a loop over numbers has taken off [toks] when it returns with
    [toks'] left: tokens that [float] read, up to the end of the tokens or
    to a command letter. *)
Definition loop_takes {F : Type} `{Number F} (toks toks' : list string) : Prop :=
  ∃ taken, toks = taken ++ toks'
    ∧ Forall (λ t, is_Some (float (F:=F) t)) taken ∧ at_command toks'.

(** The errors of the loops over numbers: the end of the tokens, or a
    token of [toks] that [float] refuses. *)
Definition loop_error {F : Type} `{Number F} (toks : list string) (e : exn) : Prop :=
  e = UnexpectedEndOfData ∨ ∃ s, e = FloatError s ∧ s ∈ toks ∧ float (F:=F) s = None.

(** The tokens are over, or a moveto letter comes next. *)
Definition at_moveto (toks : list string) : Prop :=
  match toks with
  | [] => True
  | t :: _ => is_moveto t = true
  end.

(** The tokens [x1 y1 x2 y2 ...] of the pairs [(x1, y1), (x2, y2), ...]. *)
Definition pair_tokens (pairs : list (string * string)) : list string :=
  flat_map (λ p, [p.1; p.2]) pairs.

(** ** The element loop

    What is known of an outcome of the element loop entered with [out]
    printed and [all_polys] collected: it has printed a warning for each
    path skipped since, and then either written the file and reported it,
    or stopped on a [float] error nobody catches, or met a path that is
    interpreted for ever. *)
Definition loop_outcome {F : Type} `{Number F} (outp : string) (out : list message)
    (all_polys : list (list (@point F))) (o : outcome F) : Prop :=
  ∃ skips, Forall (λ m, ∃ ex, m = SkippingPath ex) skips
    ∧ match final o with
      | Done outp' polys =>
          outp' = outp ∧ stdout o = out ++ skips ++ [Wrote outp (length polys)]
          ∧ ∃ new, polys = all_polys ++ new
      | Uncaught ex =>
          stdout o = out ++ skips ∧ ∃ s, ex = FloatError s ∧ float (F:=F) s = None
      | Forever => stdout o = out ++ skips
      | Exit _ | ParseError => False
      end.

(** * Facts *)

(** ** Strings and scanners *)

Module StrFacts.

Lemma app_cons c a b : String c a +:+ b = String c (a +:+ b).
Proof. reflexivity. Qed.

Lemma app_nil_l a : "" +:+ a = a.
Proof. reflexivity. Qed.

Lemma app_nil_r a : a +:+ "" = a.
Proof. induction a as [|c a IH]; [done|]. by rewrite app_cons, IH. Qed.

Lemma app_assoc a b c : (a +:+ b) +:+ c = a +:+ (b +:+ c).
Proof. induction a as [|x a IH]; [done|]. by rewrite !app_cons, IH. Qed.

Lemma app_length a b : String.length (a +:+ b) = (String.length a + String.length b)%nat.
Proof. induction a as [|x a IH]; [done|]. rewrite app_cons. simpl. by rewrite IH. Qed.

Lemma span_spec p s a b :
  Str.span p s = (a, b) → s = a +:+ b ∧ Str.all p a = true ∧ Str.starts p b = false.
Proof.
  revert a b. induction s as [|c s IH]; intros a b; simpl.
  - intros [= <- <-]. done.
  - destruct (p c) eqn:Hc.
    + destruct (Str.span p s) as [a' b'] eqn:Hs. intros [= <- <-].
      destruct (IH _ _ eq_refl) as (-> & Ha & Hb).
      rewrite app_cons. simpl. by rewrite Hc, Ha.
    + intros [= <- <-]. simpl. by rewrite Hc.
Qed.

Lemma span_intro p a b :
  Str.all p a = true → Str.starts p b = false → Str.span p (a +:+ b) = (a, b).
Proof.
  intros Ha Hb. induction a as [|c a IH].
  - rewrite app_nil_l. destruct b as [|d b]; [done|]. simpl in *. by rewrite Hb.
  - simpl in Ha. apply andb_true_iff in Ha as [Hc Ha].
    rewrite app_cons. simpl. by rewrite Hc, (IH Ha).
Qed.

Lemma span_length p s a b :
  Str.span p s = (a, b) → String.length s = (String.length a + String.length b)%nat.
Proof. intros (-> & _)%span_spec. apply app_length. Qed.

End StrFacts.

Module ReFacts.
Import StrFacts.

(** More fuel than characters changes nothing. *)
Lemma scan_fuel {A} (m : string → option (A * string)) :
  Re.consumes m →
  ∀ n s, (String.length s ≤ n)%nat → Re.scan_fuel m n s = Re.scan m s.
Proof.
  intros Hm. unfold Re.scan.
  assert (∀ n k s, (String.length s ≤ n)%nat → (String.length s ≤ k)%nat →
            Re.scan_fuel m n s = Re.scan_fuel m k s) as Hgen.
  { induction n as [|n IH]; intros k s Hn Hk.
    - destruct s; [|simpl in Hn; lia]. by destruct k.
    - destruct k as [|k]; [destruct s; [done|simpl in Hk; lia]|].
      destruct s as [|c s]; [done|]. simpl in Hn, Hk. simpl.
      destruct (m (String c s)) as [[x rest]|] eqn:Hms.
      + apply Hm in Hms. simpl in Hms. f_equal. apply IH; lia.
      + apply IH; lia. }
  intros n s Hn. by apply Hgen.
Qed.

Lemma scan_cons {A} (m : string → option (A * string)) c s :
  Re.consumes m →
  Re.scan m (String c s) =
    match m (String c s) with
    | Some (x, rest) => x :: Re.scan m rest
    | None => Re.scan m s
    end.
Proof.
  intros Hm. unfold Re.scan at 1. simpl.
  destruct (m (String c s)) as [[x rest]|] eqn:Hms.
  - f_equal. apply scan_fuel; [done|]. apply Hm in Hms. simpl in Hms. lia.
  - by apply scan_fuel.
Qed.

End ReFacts.

Module NumFacts.
Import StrFacts.

Lemma digit_not_sign c : Chars.is_digit c = true → Chars.is_sign c = false.
Proof. destruct c as [[] [] [] [] [] [] [] []]; done. Qed.

Lemma digit_not_dot c : Chars.is_digit c = true → c ≠ "."%char.
Proof. destruct c as [[] [] [] [] [] [] [] []]; done. Qed.

Lemma digit_not_exp c : Chars.is_digit c = true → Chars.is_exp c = false.
Proof. destruct c as [[] [] [] [] [] [] [] []]; done. Qed.

Lemma exp_not_dot c : Chars.is_exp c = true → c ≠ "."%char.
Proof. destruct c as [[] [] [] [] [] [] [] []]; done. Qed.

Lemma sep_inert c s : Chars.is_sep c = true → Re.inert (String c s) = true.
Proof. destruct c as [[] [] [] [] [] [] [] []]; done. Qed.

Lemma sep_not_cmd c : Chars.is_sep c = true → Chars.is_cmd c = false.
Proof. destruct c as [[] [] [] [] [] [] [] []]; done. Qed.

Lemma sep_not_sign c : Chars.is_sep c = true → Chars.is_sign c = false.
Proof. destruct c as [[] [] [] [] [] [] [] []]; done. Qed.

Lemma inert_not_digit s : Re.inert s = true → Str.starts Chars.is_digit s = false.
Proof. destruct s as [|c s]; [done|]. simpl. by destruct (Chars.is_digit c). Qed.

Lemma starts_app p a b : a ≠ "" → Str.starts p (a +:+ b) = Str.starts p a.
Proof. by destruct a. Qed.

Lemma all_starts p a : a ≠ "" → Str.all p a = true → Str.starts p a = true.
Proof. destruct a as [|c a]; [done|]. simpl. by intros _ [? _]%andb_true_iff. Qed.

(** *** What the scanners return *)

Lemma opt_sign_spec s sg r :
  Re.opt_sign s = (sg, r) →
  s = sg +:+ r ∧ Re.sign_of sg ∧ (sg = "" → Str.starts Chars.is_sign r = false).
Proof.
  destruct s as [|c s]; simpl.
  - intros [= <- <-]. split_and!; [done|constructor|done].
  - destruct (Chars.is_sign c) eqn:Hc; intros [= <- <-].
    + split_and!; [done|by constructor|done].
    + split_and!; [done|constructor|done].
Qed.

Lemma digits1_spec s d r :
  Re.digits1 s = Some (d, r) →
  s = d +:+ r ∧ d ≠ "" ∧ Str.all Chars.is_digit d = true
  ∧ Str.starts Chars.is_digit r = false.
Proof.
  unfold Re.digits1. destruct (Str.span Chars.is_digit s) as [d' r'] eqn:Hs.
  case_decide; [done|]. intros [= <- <-].
  by destruct (span_spec _ _ _ _ Hs) as (-> & ? & ?).
Qed.

Lemma digits1_none s : Re.digits1 s = None → Str.starts Chars.is_digit s = false.
Proof.
  unfold Re.digits1. destruct s as [|c s]; [done|]. simpl.
  destruct (Chars.is_digit c); [|done].
  destruct (Str.span Chars.is_digit s). by case_decide.
Qed.

Lemma mantissa_spec s m r :
  Re.mantissa s = Some (m, r) → s = m +:+ r ∧ Re.mantissa_of m.
Proof.
  unfold Re.mantissa. destruct (Re.digits1 s) as [[d r1]|] eqn:Hd.
  - apply digits1_spec in Hd as (-> & Hne & Hall & _).
    unfold Re.opt_fraction.
    destruct r1 as [|c r1]; [intros [= <- <-]; rewrite !app_nil_r; split; [done|by constructor]|].
    destruct (decide (c = "."%char)) as [->|Hc].
    + destruct (Str.span Chars.is_digit r1) as [d' r'] eqn:Hs. intros [= <- <-].
      apply span_spec in Hs as (-> & Hall' & _).
      split; [by rewrite app_assoc, app_cons|by constructor].
    + assert (∀ X (x y : X), match c with "."%char => x | _ => y end = y) as Hm.
      { intros X x y. by destruct c as [[] [] [] [] [] [] [] []]. }
      rewrite Hm. intros [= <- <-]. rewrite app_nil_r. split; [done|by constructor].
  - destruct s as [|c s]; [done|].
    destruct (decide (c = "."%char)) as [->|Hc].
    + destruct (Re.digits1 s) as [[d r1]|] eqn:Hd'; [|done]. intros [= <- <-].
      apply digits1_spec in Hd' as (-> & Hne & Hall & _).
      split; [done|by constructor].
    + by destruct c as [[] [] [] [] [] [] [] []].
Qed.

Lemma opt_exponent_spec s e r :
  Re.opt_exponent s = (e, r) → s = e +:+ r ∧ Re.exponent_of e.
Proof.
  destruct s as [|c s]; simpl.
  - intros [= <- <-]. split; [done|constructor].
  - destruct (Chars.is_exp c) eqn:Hc.
    + destruct (Re.opt_sign s) as [sg r1] eqn:Hsg.
      destruct (Re.digits1 r1) as [[d r2]|] eqn:Hd; intros [= <- <-].
      * apply opt_sign_spec in Hsg as (-> & Hsg & _).
        apply digits1_spec in Hd as (-> & Hne & Hall & _).
        split; [by rewrite app_cons, app_assoc|by constructor].
      * split; [done|constructor].
    + intros [= <- <-]. split; [done|constructor].
Qed.

(** A match of [num] is a literal, and the subject is the match followed by
    the rest. *)
Lemma num_spec s tok rest :
  Re.num s = Some (tok, rest) → s = tok +:+ rest ∧ Re.literal tok.
Proof.
  unfold Re.num. destruct (Re.opt_sign s) as [sg r] eqn:Hsg.
  destruct (Re.mantissa r) as [[m r1]|] eqn:Hm; [|done].
  destruct (Re.opt_exponent r1) as [e r2] eqn:He. intros [= <- <-].
  apply opt_sign_spec in Hsg as (-> & Hsg & _).
  apply mantissa_spec in Hm as (-> & Hm).
  apply opt_exponent_spec in He as (-> & He).
  split; [by rewrite !app_assoc|by constructor].
Qed.

Lemma mantissa_nonempty m : Re.mantissa_of m → m ≠ "".
Proof. destruct 1 as [d ?|d d' ?|d ?]; by destruct d. Qed.

Lemma literal_nonempty tok : Re.literal tok → tok ≠ "".
Proof.
  destruct 1 as [sg m e _ Hm _]. apply mantissa_nonempty in Hm.
  destruct sg; [by destruct m|done].
Qed.

(** *** What the scanners do on a literal followed by inert text *)

Lemma opt_sign_intro sg x :
  Re.sign_of sg → (sg = "" → Str.starts Chars.is_sign x = false) →
  Re.opt_sign (sg +:+ x) = (sg, x).
Proof.
  destruct 1 as [|c Hc]; intros Hx.
  - rewrite app_nil_l. destruct x as [|c x]; [done|].
    simpl in *. by rewrite (Hx eq_refl).
  - rewrite app_cons, app_nil_l. simpl. by rewrite Hc.
Qed.

Lemma digits1_intro d x :
  d ≠ "" → Str.all Chars.is_digit d = true → Str.starts Chars.is_digit x = false →
  Re.digits1 (d +:+ x) = Some (d, x).
Proof.
  intros Hne Hd Hx. unfold Re.digits1. rewrite (span_intro _ _ _ Hd Hx).
  by case_decide.
Qed.

Lemma opt_fraction_none x :
  Str.starts (λ c, bool_decide (c = "."%char)) x = false → Re.opt_fraction x = ("", x).
Proof.
  destruct x as [|c x]; [done|]. simpl. intros Hc%bool_decide_eq_false.
  by destruct c as [[] [] [] [] [] [] [] []].
Qed.

Lemma mantissa_intro m x :
  Re.mantissa_of m →
  Str.starts Chars.is_digit x = false →
  Str.starts (λ c, bool_decide (c = "."%char)) x = false →
  Re.mantissa (m +:+ x) = Some (m, x).
Proof.
  intros Hm Hx Hdot. unfold Re.mantissa. destruct Hm as [d Hne Hd|d d' Hne Hd Hd'|d Hne Hd].
  - rewrite (digits1_intro _ _ Hne Hd Hx), (opt_fraction_none _ Hdot).
    by rewrite app_nil_r.
  - rewrite app_assoc, app_cons.
    rewrite (digits1_intro d (String "." (d' +:+ x)) Hne Hd eq_refl).
    simpl. by rewrite (span_intro _ _ _ Hd' Hx).
  - rewrite app_cons.
    assert (Re.digits1 (String "." (d +:+ x)) = None) as -> by done.
    by rewrite (digits1_intro _ _ Hne Hd Hx).
Qed.

Lemma opt_exponent_intro e x :
  Re.exponent_of e → Re.inert x = true → Re.opt_exponent (e +:+ x) = (e, x).
Proof.
  intros He Hx. destruct He as [|c sg d Hc Hsg Hne Hd].
  - rewrite app_nil_l. destruct x as [|c x]; [done|]. simpl in *.
    destruct (Chars.is_exp c); [|done]. by rewrite andb_false_r in Hx.
  - rewrite app_cons, app_assoc. simpl. rewrite Hc.
    rewrite opt_sign_intro; [|done|].
    + by rewrite (digits1_intro _ _ Hne Hd (inert_not_digit _ Hx)).
    + intros _. rewrite starts_app by done.
      destruct d as [|a d]; [done|]. simpl in *.
      apply andb_true_iff in Hd as [Ha _]. by apply digit_not_sign.
Qed.

Lemma mantissa_starts m x :
  Re.mantissa_of m → Str.starts Chars.is_sign (m +:+ x) = false.
Proof.
  intros Hm. rewrite starts_app by by apply mantissa_nonempty.
  destruct Hm as [d Hne Hd|d d' Hne Hd _|d _ _]; [| |done].
  - destruct d as [|a d]; [done|]. simpl in *.
    apply andb_true_iff in Hd as [Ha _]. by apply digit_not_sign.
  - destruct d as [|a d]; [done|]. simpl in *.
    apply andb_true_iff in Hd as [Ha _]. by apply digit_not_sign.
Qed.

Lemma exponent_follows e x :
  Re.exponent_of e → Re.inert x = true →
  Str.starts Chars.is_digit (e +:+ x) = false
  ∧ Str.starts (λ c, bool_decide (c = "."%char)) (e +:+ x) = false.
Proof.
  intros He Hx. destruct He as [|c sg d Hc _ _ _].
  - rewrite app_nil_l. destruct x as [|c x]; [done|]. simpl in *.
    destruct (Chars.is_digit c); [done|]. by destruct (bool_decide (c = "."%char)).
  - rewrite app_cons. simpl. split.
    + destruct (Chars.is_digit c) eqn:Hd; [|done].
      apply digit_not_exp in Hd. congruence.
    + apply bool_decide_eq_false. by apply exp_not_dot.
Qed.

(** [num] takes a literal whole when inert text follows it. *)
Lemma num_intro tok rest :
  Re.literal tok → Re.inert rest = true → Re.num (tok +:+ rest) = Some (tok, rest).
Proof.
  intros [sg m e Hsg Hm He] Hrest. unfold Re.num.
  rewrite !app_assoc.
  rewrite (opt_sign_intro sg _ Hsg) by (intros _; by apply mantissa_starts).
  destruct (exponent_follows e rest He Hrest) as [Hd Hdot].
  rewrite (mantissa_intro m _ Hm Hd Hdot).
  by rewrite (opt_exponent_intro e rest He Hrest).
Qed.

(** [re.fullmatch(num, s)] holds exactly of the literals. *)
Lemma fullmatch_num_literal tok : Re.fullmatch_num tok = true ↔ Re.literal tok.
Proof.
  unfold Re.fullmatch_num. split.
  - destruct (Re.num tok) as [[t r]|] eqn:Hn; [|done].
    destruct r; [|done]. intros _.
    apply num_spec in Hn as [-> Hl]. by rewrite app_nil_r.
  - intros Hl. pose proof (num_intro tok "" Hl eq_refl) as Hn.
    rewrite app_nil_r in Hn. by rewrite Hn.
Qed.

(** *** No match is empty *)

Lemma num_consumes : Re.consumes Re.num.
Proof.
  intros s tok rest [-> Hl]%num_spec. apply literal_nonempty in Hl.
  rewrite app_length. destruct tok; [done|simpl; lia].
Qed.

Lemma CMD_consumes : Re.consumes Re.CMD.
Proof.
  intros s tok rest. destruct s as [|c s]; [done|]. unfold Re.CMD.
  destruct (Chars.is_cmd c).
  - intros [= <- <-]. simpl. lia.
  - apply num_consumes.
Qed.

Lemma pair_consumes : Re.consumes Re.pair.
Proof.
  intros s ab rest. unfold Re.pair.
  destruct (Re.num s) as [[a r]|] eqn:Ha; [|done].
  destruct (Re.seps1 r) as [[sp r1]|] eqn:Hsp; [|done].
  destruct (Re.num r1) as [[b r2]|] eqn:Hb; [|done]. intros [= <- <-].
  apply num_consumes in Ha, Hb. unfold Re.seps1 in Hsp.
  destruct (Str.span Chars.is_sep r) as [x y] eqn:Hs. case_decide; [done|].
  injection Hsp as <- <-. apply span_length in Hs. lia.
Qed.

(** Every token of [CMD.findall] is a command letter or a literal. *)
Lemma findall_CMD_tokens s :
  Forall (λ t, Re.fullmatch_cmd t = true ∨ Re.literal t) (Re.findall_CMD s).
Proof.
  unfold Re.findall_CMD, Re.scan. generalize (String.length s) as n.
  intros n. revert s. induction n as [|n IH]; intros s; [constructor|].
  destruct s as [|c s]; [constructor|]. cbn [Re.scan_fuel].
  destruct (Re.CMD (String c s)) as [[tok rest]|] eqn:Hc; [|apply IH].
  constructor; [|apply IH]. unfold Re.CMD in Hc.
  destruct (Chars.is_cmd c) eqn:Hcmd.
  - injection Hc as <- <-. left. done.
  - right. by apply num_spec in Hc as [_ ?].
Qed.

End NumFacts.

(** ** Scanning an attribute text *)

Module ScanFacts.
Import StrFacts NumFacts.

Lemma strip_prefix_spec p s r : Str.strip_prefix p s = Some r → s = p +:+ r.
Proof.
  revert s. induction p as [|a p IH]; intros s; simpl; [by intros [= ->]|].
  destruct s as [|b s]; [done|]. case_decide as Hab; [|done]. subst b.
  intros Hr%IH. by rewrite Hr.
Qed.

Lemma strip_prefix_app p x : Str.strip_prefix p (p +:+ x) = Some x.
Proof.
  induction p as [|a p IH]; [done|]. rewrite app_cons. simpl. by rewrite decide_True.
Qed.

Lemma all_app p a b : Str.all p (a +:+ b) = Str.all p a && Str.all p b.
Proof. induction a as [|c a IH]; [done|]. rewrite app_cons. simpl. by rewrite IH, andb_assoc. Qed.

Lemma call_consumes : Re.consumes Re.call.
Proof.
  intros s x rest. unfold Re.call, Re.kind.
  assert (∀ k r, Str.strip_prefix k s = Some r →
            match Str.lstrip r with
            | String "("%char r' =>
                match Str.span (λ c, negb (bool_decide (c = ")"%char))) r' with
                | (String a args, String ")"%char r'') => Some (k, String a args, r'')
                | _ => None
                end
            | _ => None
            end = Some (x, rest) → (String.length rest < String.length s)%nat) as Hgen.
  { intros k r ->%strip_prefix_spec. unfold Str.lstrip.
    destruct (Str.span Chars.is_space r) as [ws r1] eqn:Hws. simpl.
    apply span_length in Hws.
    destruct r1 as [|c r1]; [done|].
    destruct (decide (c = "("%char)) as [->|]; [|by destruct c as [[] [] [] [] [] [] [] []]].
    destruct (Str.span _ r1) as [args r2] eqn:Hargs. apply span_length in Hargs.
    destruct args as [|a args]; [done|]. destruct r2 as [|c r2]; [done|].
    destruct (decide (c = ")"%char)) as [->|]; [|by destruct c as [[] [] [] [] [] [] [] []]].
    intros [= <- <-]. rewrite app_length, Hws. simpl in *. lia. }
  destruct (Str.strip_prefix "translate" s) as [r|] eqn:Ht; [by apply Hgen|].
  destruct (Str.strip_prefix "scale" s) as [r|] eqn:Hs; [by apply Hgen|done].
Qed.

(** *** Separators are passed over *)

Lemma num_sep c s : Chars.is_sep c = true → Re.num (String c s) = None.
Proof.
  intros Hc. unfold Re.num, Re.opt_sign. rewrite (sep_not_sign _ Hc).
  unfold Re.mantissa, Re.digits1. simpl.
  assert (Chars.is_digit c = false ∧ c ≠ "."%char) as [-> Hdot]
    by (destruct c as [[] [] [] [] [] [] [] []]; done).
  rewrite decide_True by done.
  by destruct c as [[] [] [] [] [] [] [] []].
Qed.

Lemma pair_sep c s : Chars.is_sep c = true → Re.pair (String c s) = None.
Proof. intros Hc. unfold Re.pair. by rewrite num_sep. Qed.

Lemma call_sep c s : Chars.is_sep c = true → Re.call (String c s) = None.
Proof.
  intros Hc. unfold Re.call, Re.kind. simpl.
  assert (c ≠ "t"%char ∧ c ≠ "s"%char) as [Ht Hs]
    by (destruct c as [[] [] [] [] [] [] [] []]; done).
  rewrite !decide_False by done. done.
Qed.

Lemma scan_pair_seps lead s :
  Str.all Chars.is_sep lead = true → Re.scan Re.pair (lead +:+ s) = Re.scan Re.pair s.
Proof.
  induction lead as [|c lead IH]; [done|]. simpl. intros [Hc Hl]%andb_true_iff.
  rewrite app_cons, (ReFacts.scan_cons _ _ _ pair_consumes), (pair_sep _ _ Hc). by apply IH.
Qed.

Lemma scan_call_seps lead s :
  Str.all Chars.is_sep lead = true → Re.scan Re.call (lead +:+ s) = Re.scan Re.call s.
Proof.
  induction lead as [|c lead IH]; [done|]. simpl. intros [Hc Hl]%andb_true_iff.
  rewrite app_cons, (ReFacts.scan_cons _ _ _ call_consumes), (call_sep _ _ Hc). by apply IH.
Qed.

(** *** A pair of literals *)

Lemma literal_starts tok x : Re.literal tok → Str.starts Chars.is_sep (tok +:+ x) = false.
Proof.
  intros Hl. pose proof (literal_nonempty _ Hl) as Hne.
  rewrite starts_app by done. destruct Hl as [sg m e Hsg Hm _].
  assert (∀ c, Chars.is_digit c = true ∨ c = "."%char ∨ Chars.is_sign c = true →
            Chars.is_sep c = false) as Hc.
  { intros c [Hd|[->|Hs]]; [|done|]; destruct c as [[] [] [] [] [] [] [] []]; done. }
  destruct Hsg as [|c Hsign]; [|simpl; apply Hc; auto].
  rewrite app_nil_l, starts_app by by apply mantissa_nonempty.
  destruct Hm as [d Hd Hall|d d' Hd Hall _|d _ _]; [| |done].
  - destruct d as [|c d]; [done|]. simpl in *.
    apply andb_true_iff in Hall as [? _]. apply Hc; auto.
  - destruct d as [|c d]; [done|]. simpl in *.
    apply andb_true_iff in Hall as [? _]. apply Hc; auto.
Qed.

Lemma seps_inert sp x : sp ≠ "" → Str.all Chars.is_sep sp = true → Re.inert (sp +:+ x) = true.
Proof.
  destruct sp as [|c sp]; [done|]. cbn [Str.all]. intros _ [Hc _]%andb_true_iff.
  rewrite app_cons. by apply sep_inert.
Qed.

Lemma pair_intro a sp b rest :
  Re.literal a → Re.literal b →
  sp ≠ "" → Str.all Chars.is_sep sp = true → Re.inert rest = true →
  Re.pair (a +:+ sp +:+ b +:+ rest) = Some ((a, b), rest).
Proof.
  intros Ha Hb Hne Hsp Hrest. unfold Re.pair.
  rewrite (num_intro a _ Ha) by by apply seps_inert.
  unfold Re.seps1. rewrite (span_intro _ sp _ Hsp) by by apply literal_starts.
  rewrite decide_False by done. by rewrite (num_intro b rest Hb Hrest).
Qed.

(** [re.findall] on the text of a [points] attribute gives its pairs in
    their order. *)
Lemma findall_pair_points lead items :
  Str.all Chars.is_sep lead = true → Text.points_wf items →
  Re.findall_pair (lead +:+ Text.points_text items) = Text.pairs_of items.
Proof.
  unfold Re.findall_pair. intros Hlead Hwf. rewrite (scan_pair_seps _ _ Hlead).
  clear lead Hlead. induction items as [|[a sp b gap] items IH]; [done|].
  destruct Hwf as (Ha & Hb & Hne & Hsp & Hgap & Hnext & Hwf). simpl in *.
  assert (Re.inert (gap +:+ Text.points_text items) = true) as Hinert.
  { destruct gap as [|c gap]; [|by apply seps_inert].
    destruct items as [|item items]; [done|]. by destruct Hnext. }
  pose proof (pair_intro a sp b _ Ha Hb Hne Hsp Hinert) as Hpair.
  pose proof (literal_nonempty _ Ha) as Hane.
  destruct a as [|c a]; [done|]. rewrite !app_cons in *.
  rewrite (ReFacts.scan_cons _ _ _ pair_consumes), Hpair.
  f_equal. rewrite (scan_pair_seps _ _ Hgap). by apply IH.
Qed.

(** *** A call *)

Lemma call_intro item rest :
  Text.call_wf item →
  Re.call (Text.ckind item +:+ String "("%char (Text.cargs item +:+ String ")"%char rest))
  = Some ((Text.ckind item, Text.cargs item), rest).
Proof.
  destruct item as [k args gap]. intros (Hk & Hne & Hargs & _). simpl in *.
  unfold Re.call.
  assert (Re.kind (k +:+ String "("%char (args +:+ String ")"%char rest))
          = Some (k, String "("%char (args +:+ String ")"%char rest))) as ->.
  { unfold Re.kind. destruct Hk as [-> | ->]; [by rewrite strip_prefix_app|].
    by rewrite strip_prefix_app. }
  unfold Str.lstrip. simpl.
  rewrite (span_intro _ args _ Hargs) by done.
  by destruct args.
Qed.

(** [re.finditer] on the text of a [transform] attribute gives its calls in
    their order. *)
Lemma finditer_call_calls items :
  Forall Text.call_wf items →
  Re.finditer_call (Text.calls_text items) = Text.calls_of items.
Proof.
  unfold Re.finditer_call. induction 1 as [|item items Hwf _ IH]; [done|]. simpl.
  pose proof (call_intro item (Text.cgap item +:+ Text.calls_text items) Hwf) as Hcall.
  destruct Hwf as (Hk & _ & _ & Hgap).
  assert (∃ c k', Text.ckind item = String c k') as (c & k' & Hkind)
    by (destruct Hk as [-> | ->]; by eexists _, _).
  rewrite Hkind in Hcall |- * at 1. rewrite app_cons in Hcall |- *.
  rewrite (ReFacts.scan_cons _ _ _ call_consumes), Hcall.
  rewrite <- Hkind. f_equal. rewrite (scan_call_seps _ _ Hgap). apply IH.
Qed.

End ScanFacts.

(** ** The path data interpreter *)

Section PathFacts.

Context {F : Type} `{Number F}.

Implicit Types (toks : list string) (polys : list (list (@point F))) (st : @state F).

Lemma bind_ret {A B} (m : res A) (f : A → res B) b :
  m ≫= f = Ret b → ∃ a, m = Ret a ∧ f a = Ret b.
Proof. destruct m as [a|e|]; [|done..]. intros Hf. by exists a. Qed.

Lemma bind_never_hangs {A B} (m : res A) (f : A → res B) :
  m ≠ Hang → (∀ a, f a ≠ Hang) → m ≫= f ≠ Hang.
Proof. destruct m as [a|e|]; [|done..]. intros _ Hf. apply Hf. Qed.

Lemma to_float_never_hangs s : to_float s ≠ Hang.
Proof. unfold to_float. by destruct (float s). Qed.

Lemma append_last_snoc polys poly pt :
  append_last (polys ++ [poly]) pt = polys ++ [poly ++ [pt]].
Proof.
  induction polys as [|p polys IH]; [done|].
  simpl. rewrite IH. by destruct polys.
Qed.

Lemma append_last_nonempty polys pt :
  Forall (λ poly, poly ≠ []) polys → Forall (λ poly, poly ≠ []) (append_last polys pt).
Proof.
  induction 1 as [|p polys Hp Hps IH]; [constructor|].
  simpl. destruct polys as [|q polys].
  - constructor; [by destruct p|constructor].
  - by constructor.
Qed.

Lemma ensure_poly_nonempty polys pt :
  Forall (λ poly, poly ≠ []) polys → Forall (λ poly, poly ≠ []) (ensure_poly polys pt).
Proof. destruct polys; [|done]. intros _. by repeat constructor. Qed.

(** What is known of a loop over numbers when it returns: it has not
    lengthened the token list and has shortened it if a number stood first;
    it depends on the tokens behind the next command letter only by handing
    them back. *)
Definition loop_returns {A} (loop : list string → res (A * list string))
    (toks : list string) (a : A) (toks' : list string) : Prop :=
  (length toks' ≤ length toks)%nat
  ∧ (∀ t r, toks = t :: r → Re.fullmatch_cmd t = false → (length toks' < length toks)%nat)
  ∧ (∀ c rest, Re.fullmatch_cmd c = true → loop (toks ++ c :: rest) = Ret (a, toks' ++ c :: rest)).

Lemma moveto_pairs_ret rel poly cur toks poly' cur' toks' :
  moveto_pairs rel poly cur toks = Ret (poly', cur', toks') →
  loop_returns (moveto_pairs rel poly cur) toks (poly', cur') toks'
  ∧ (poly ≠ [] → poly' ≠ []).
Proof.
  remember (length toks) as n eqn:Hn. revert toks Hn poly cur.
  induction n as [n IH] using lt_wf_ind. intros toks -> poly cur.
  destruct toks as [|t toks1]; simpl.
  { intros [= <- <- <-]. split; [|done]. split_and!; [done|done|].
    intros c rest Hc. simpl. by rewrite Hc. }
  destruct (Re.fullmatch_cmd t) eqn:Ht.
  { intros [= <- <- <-]. split; [|done]. split_and!; [done|congruence|].
    intros c rest Hc. simpl. by rewrite Ht. }
  destruct (to_float t) as [x| |] eqn:Hx; [|done..].
  destruct toks1 as [|t' toks2]; [done|].
  destruct (to_float t') as [y| |] eqn:Hy; [|done..]. intros Hrec.
  apply (IH (length toks2)) in Hrec as ((Hle & _ & Happ) & Hne); [|simpl; lia|done].
  split; [|intros _; apply Hne; by destruct poly].
  split_and!; [simpl; lia|simpl; lia|].
  intros c rest Hc. simpl. rewrite Ht, Hx, Hy. by apply Happ.
Qed.

Lemma lineto_pairs_ret rel polys cur toks polys' cur' toks' :
  lineto_pairs rel polys cur toks = Ret (polys', cur', toks') →
  loop_returns (lineto_pairs rel polys cur) toks (polys', cur') toks'
  ∧ (Forall (λ poly, poly ≠ []) polys → Forall (λ poly, poly ≠ []) polys').
Proof.
  remember (length toks) as n eqn:Hn. revert toks Hn polys cur.
  induction n as [n IH] using lt_wf_ind. intros toks -> polys cur.
  destruct toks as [|t toks1]; simpl.
  { intros [= <- <- <-]. split; [|done]. split_and!; [done|done|].
    intros c rest Hc. simpl. by rewrite Hc. }
  destruct (Re.fullmatch_cmd t) eqn:Ht.
  { intros [= <- <- <-]. split; [|done]. split_and!; [done|congruence|].
    intros c rest Hc. simpl. by rewrite Ht. }
  destruct (to_float t) as [x| |] eqn:Hx; [|done..].
  destruct toks1 as [|t' toks2]; [done|].
  destruct (to_float t') as [y| |] eqn:Hy; [|done..]. intros Hrec.
  apply (IH (length toks2)) in Hrec as ((Hle & _ & Happ) & Hne); [|simpl; lia|done].
  split; [|intros Hp; by apply Hne, append_last_nonempty].
  split_and!; [simpl; lia|simpl; lia|].
  intros c rest Hc. simpl. rewrite Ht, Hx, Hy. by apply Happ.
Qed.

Lemma hlineto_nums_ret rel polys cur toks polys' cur' toks' :
  hlineto_nums rel polys cur toks = Ret (polys', cur', toks') →
  loop_returns (hlineto_nums rel polys cur) toks (polys', cur') toks'
  ∧ (Forall (λ poly, poly ≠ []) polys → Forall (λ poly, poly ≠ []) polys').
Proof.
  revert polys cur. induction toks as [|t toks1 IH]; intros polys cur; simpl.
  { intros [= <- <- <-]. split; [|done]. split_and!; [done|done|].
    intros c rest Hc. simpl. by rewrite Hc. }
  destruct (Re.fullmatch_cmd t) eqn:Ht.
  { intros [= <- <- <-]. split; [|done]. split_and!; [done|congruence|].
    intros c rest Hc. simpl. by rewrite Ht. }
  destruct (to_float t) as [x| |] eqn:Hx; [|done..]. intros Hrec.
  apply IH in Hrec as ((Hle & _ & Happ) & Hne).
  split; [|intros Hp; by apply Hne, append_last_nonempty].
  split_and!; [simpl; lia|simpl; lia|].
  intros c rest Hc. simpl. rewrite Ht, Hx. by apply Happ.
Qed.

Lemma vlineto_nums_ret rel polys cur toks polys' cur' toks' :
  vlineto_nums rel polys cur toks = Ret (polys', cur', toks') →
  loop_returns (vlineto_nums rel polys cur) toks (polys', cur') toks'
  ∧ (Forall (λ poly, poly ≠ []) polys → Forall (λ poly, poly ≠ []) polys').
Proof.
  revert polys cur. induction toks as [|t toks1 IH]; intros polys cur; simpl.
  { intros [= <- <- <-]. split; [|done]. split_and!; [done|done|].
    intros c rest Hc. simpl. by rewrite Hc. }
  destruct (Re.fullmatch_cmd t) eqn:Ht.
  { intros [= <- <- <-]. split; [|done]. split_and!; [done|congruence|].
    intros c rest Hc. simpl. by rewrite Ht. }
  destruct (to_float t) as [y| |] eqn:Hx; [|done..]. intros Hrec.
  apply IH in Hrec as ((Hle & _ & Happ) & Hne).
  split; [|intros Hp; by apply Hne, append_last_nonempty].
  split_and!; [simpl; lia|simpl; lia|].
  intros c rest Hc. simpl. rewrite Ht, Hx. by apply Happ.
Qed.

Lemma moveto_pairs_never_hangs rel poly cur toks : moveto_pairs rel poly cur toks ≠ Hang.
Proof.
  remember (length toks) as n eqn:Hn. revert toks Hn poly cur.
  induction n as [n IH] using lt_wf_ind. intros toks -> poly cur.
  destruct toks as [|t [|t' toks2]]; simpl; [done|..].
  - destruct (Re.fullmatch_cmd t); [done|].
    pose proof (to_float_never_hangs t). by destruct (to_float t).
  - destruct (Re.fullmatch_cmd t); [done|].
    pose proof (to_float_never_hangs t). destruct (to_float t); [|done..].
    pose proof (to_float_never_hangs t'). destruct (to_float t'); [|done..].
    apply (IH (length toks2)); [simpl; lia|done].
Qed.

Lemma lineto_pairs_never_hangs rel polys cur toks : lineto_pairs rel polys cur toks ≠ Hang.
Proof.
  remember (length toks) as n eqn:Hn. revert toks Hn polys cur.
  induction n as [n IH] using lt_wf_ind. intros toks -> polys cur.
  destruct toks as [|t [|t' toks2]]; simpl; [done|..].
  - destruct (Re.fullmatch_cmd t); [done|].
    pose proof (to_float_never_hangs t). by destruct (to_float t).
  - destruct (Re.fullmatch_cmd t); [done|].
    pose proof (to_float_never_hangs t). destruct (to_float t); [|done..].
    pose proof (to_float_never_hangs t'). destruct (to_float t'); [|done..].
    apply (IH (length toks2)); [simpl; lia|done].
Qed.

Lemma hlineto_nums_never_hangs rel polys cur toks : hlineto_nums rel polys cur toks ≠ Hang.
Proof.
  revert polys cur. induction toks as [|t toks IH]; intros polys cur; simpl; [done|].
  destruct (Re.fullmatch_cmd t); [done|].
  pose proof (to_float_never_hangs t). destruct (to_float t); [|done..]. apply IH.
Qed.

Lemma vlineto_nums_never_hangs rel polys cur toks : vlineto_nums rel polys cur toks ≠ Hang.
Proof.
  revert polys cur. induction toks as [|t toks IH]; intros polys cur; simpl; [done|].
  destruct (Re.fullmatch_cmd t); [done|].
  pose proof (to_float_never_hangs t). destruct (to_float t); [|done..]. apply IH.
Qed.

Lemma readnum_never_hangs toks : readnum toks ≠ Hang.
Proof.
  destruct toks as [|t toks]; [done|]. simpl.
  apply bind_never_hangs; [apply to_float_never_hangs|done].
Qed.

Lemma readnum_ret toks x toks' :
  readnum toks = Ret (x, toks') →
  ∃ t, toks = t :: toks' ∧ to_float t = Ret x.
Proof.
  destruct toks as [|t toks]; [done|]. simpl.
  destruct (to_float t) as [v| |] eqn:Hv; [|done..]. intros [= <- <-]. by exists t.
Qed.

(** An iteration of the main loop never hangs by itself. *)
Lemma step_never_hangs st t toks : step st t toks ≠ Hang.
Proof.
  unfold step.
  destruct (if Re.fullmatch_cmd t then _ else _) as [c toks1].
  destruct (cmd_in c "M" "m"); [|destruct (cmd_in c "L" "l");
    [|destruct (cmd_in c "H" "h"); [|destruct (cmd_in c "V" "v");
    [|by destruct (cmd_in c "Z" "z")]]]].
  - apply bind_never_hangs; [apply readnum_never_hangs|intros [x toks2]].
    apply bind_never_hangs; [apply readnum_never_hangs|intros [y toks3]].
    apply bind_never_hangs; [apply moveto_pairs_never_hangs|by intros [[??]?]].
  - apply bind_never_hangs; [apply lineto_pairs_never_hangs|by intros [[??]?]].
  - apply bind_never_hangs; [apply hlineto_nums_never_hangs|by intros [[??]?]].
  - apply bind_never_hangs; [apply vlineto_nums_never_hangs|by intros [[??]?]].
Qed.

Lemma closepath_nonempty st c :
  Forall (λ poly, poly ≠ []) (polys st) → Forall (λ poly, poly ≠ []) (polys (closepath st c)).
Proof.
  intros Hst. unfold closepath. destruct (last (polys st)) as [[|first poly]|]; [done| |done].
  simpl. case_decide; [|done]. by apply append_last_nonempty.
Qed.

Lemma closepath_cmd st c : cmd (closepath st c) = c.
Proof. unfold closepath. by repeat case_match. Qed.

(** What is known of an iteration that returns. *)
Lemma step_ret st t toks st' toks' :
  step st t toks = Ret (st', toks') →
  ((length toks' ≤ length toks)%nat
   ∨ (toks' = t :: toks ∧ Re.fullmatch_cmd t = false
      ∧ cmd_in (cmd st) "Z" "z" = true ∧ cmd st' = cmd st))
  ∧ (Forall (λ poly, poly ≠ []) (polys st) → Forall (λ poly, poly ≠ []) (polys st'))
  ∧ (∀ c rest, Re.fullmatch_cmd c = true →
       step st t (toks ++ c :: rest) = Ret (st', toks' ++ c :: rest)).
Proof.
  unfold step.
  assert (∀ c rest,
    (if Re.fullmatch_cmd t then (Some t, toks ++ c :: rest)
     else (cmd st, t :: toks ++ c :: rest))
    = ((if Re.fullmatch_cmd t then (Some t, toks) else (cmd st, t :: toks)).1,
       (if Re.fullmatch_cmd t then (Some t, toks) else (cmd st, t :: toks)).2 ++ c :: rest))
    as Hsplit by (intros; by destruct (Re.fullmatch_cmd t)).
  assert ((length (if Re.fullmatch_cmd t then (Some t, toks) else (cmd st, t :: toks)).2
           ≤ length toks)%nat
          ∨ (if Re.fullmatch_cmd t then (Some t, toks) else (cmd st, t :: toks))
            = (cmd st, t :: toks) ∧ Re.fullmatch_cmd t = false) as Hhead
    by (destruct (Re.fullmatch_cmd t); [left; simpl; lia|by right]).
  destruct (if Re.fullmatch_cmd t then _ else _) as [k toks1] eqn:Hk.
  simpl in Hsplit, Hhead.
  destruct (cmd_in k "M" "m") eqn:HM; [|destruct (cmd_in k "L" "l") eqn:HL;
    [|destruct (cmd_in k "H" "h") eqn:HH; [|destruct (cmd_in k "V" "v") eqn:HV;
    [|destruct (cmd_in k "Z" "z") eqn:HZ; [|done]]]]].
  - intros ([x toks2] & Hx & Hrest)%bind_ret.
    apply bind_ret in Hrest as ([y toks3] & Hy & Hrest).
    apply bind_ret in Hrest as ([[poly cur2] toks4] & Hloop & [= <- <-]).
    apply readnum_ret in Hx as (tx & -> & Hx).
    apply readnum_ret in Hy as (ty & -> & Hy).
    apply moveto_pairs_ret in Hloop as ((Hle & _ & Happ) & Hne).
    split_and!.
    + left. destruct Hhead as [Hh|[Hh _]]; [simpl in Hh; lia|].
      injection Hh as _ _ <-. simpl. lia.
    + simpl. intros Hst. apply Forall_app. split; [done|].
      constructor; [by apply Hne|constructor].
    + intros c rest Hc. rewrite Hsplit, HM. simpl. rewrite Hx. simpl. rewrite Hy. simpl.
      by rewrite (Happ c rest Hc).
  - intros ([[polys' cur'] toks2] & Hloop & [= <- <-])%bind_ret.
    apply lineto_pairs_ret in Hloop as ((Hle & Hlt & Happ) & Hne).
    split_and!.
    + left. destruct Hhead as [Hh|[[= _ Hh] Ht]]; [lia|].
      specialize (Hlt _ _ Hh Ht). rewrite Hh in Hlt. simpl in Hlt. lia.
    + simpl. intros Hst. by apply Hne, ensure_poly_nonempty.
    + intros c rest Hc. rewrite Hsplit, HM, HL. by rewrite (Happ c rest Hc).
  - intros ([[polys' cur'] toks2] & Hloop & [= <- <-])%bind_ret.
    apply hlineto_nums_ret in Hloop as ((Hle & Hlt & Happ) & Hne).
    split_and!.
    + left. destruct Hhead as [Hh|[[= _ Hh] Ht]]; [lia|].
      specialize (Hlt _ _ Hh Ht). rewrite Hh in Hlt. simpl in Hlt. lia.
    + simpl. intros Hst. by apply Hne, ensure_poly_nonempty.
    + intros c rest Hc. rewrite Hsplit, HM, HL, HH. by rewrite (Happ c rest Hc).
  - intros ([[polys' cur'] toks2] & Hloop & [= <- <-])%bind_ret.
    apply vlineto_nums_ret in Hloop as ((Hle & Hlt & Happ) & Hne).
    split_and!.
    + left. destruct Hhead as [Hh|[[= _ Hh] Ht]]; [lia|].
      specialize (Hlt _ _ Hh Ht). rewrite Hh in Hlt. simpl in Hlt. lia.
    + simpl. intros Hst. by apply Hne, ensure_poly_nonempty.
    + intros c rest Hc. rewrite Hsplit, HM, HL, HH, HV. by rewrite (Happ c rest Hc).
  - intros [= <- <-]. split_and!.
    + destruct Hhead as [Hh|[[= -> Hh] Ht]]; [by left|]. right.
      split_and!; [done|done|done|apply closepath_cmd].
    + apply closepath_nonempty.
    + intros c rest Hc. by rewrite Hsplit, HM, HL, HH, HV, HZ.
Qed.

(** *** Numbers that stop short of a pair *)

Lemma moveto_pairs_odd rel poly cur nums :
  Forall (λ t, Re.fullmatch_cmd t = false ∧ is_Some (float t)) nums →
  Nat.odd (length nums) = true →
  moveto_pairs rel poly cur nums = Raise UnexpectedEndOfData.
Proof.
  remember (length nums) as n eqn:Hn. revert nums Hn poly cur.
  induction n as [n IH] using lt_wf_ind. intros nums -> poly cur Hnums Hodd.
  destruct nums as [|t [|t' nums]]; [done|..].
  - apply Forall_cons in Hnums as [[Ht [x Hx]] _]. simpl. unfold to_float.
    by rewrite Ht, Hx.
  - apply Forall_cons in Hnums as [[Ht [x Hx]] Hnums].
    apply Forall_cons in Hnums as [[_ [y Hy]] Hnums].
    simpl. unfold to_float. rewrite Ht, Hx, Hy.
    apply (IH (length nums)); [simpl; lia|done|done|].
    by rewrite <- Nat.odd_succ_succ.
Qed.

Lemma lineto_pairs_odd rel polys cur nums :
  Forall (λ t, Re.fullmatch_cmd t = false ∧ is_Some (float t)) nums →
  Nat.odd (length nums) = true →
  lineto_pairs rel polys cur nums = Raise UnexpectedEndOfData.
Proof.
  remember (length nums) as n eqn:Hn. revert nums Hn polys cur.
  induction n as [n IH] using lt_wf_ind. intros nums -> polys cur Hnums Hodd.
  destruct nums as [|t [|t' nums]]; [done|..].
  - apply Forall_cons in Hnums as [[Ht [x Hx]] _]. simpl. unfold to_float.
    by rewrite Ht, Hx.
  - apply Forall_cons in Hnums as [[Ht [x Hx]] Hnums].
    apply Forall_cons in Hnums as [[_ [y Hy]] Hnums].
    simpl. unfold to_float. rewrite Ht, Hx, Hy.
    apply (IH (length nums)); [simpl; lia|done|done|].
    by rewrite <- Nat.odd_succ_succ.
Qed.

(** The iteration entered at such a command letter raises. *)
Lemma step_ends_short st c nums :
  Forall (λ t, Re.fullmatch_cmd t = false ∧ is_Some (float t)) nums →
  ends_short c nums →
  step st c nums = Raise UnexpectedEndOfData.
Proof.
  intros Hnums [[Hc Hshort]|[Hc Hodd]].
  - assert (Re.fullmatch_cmd c = true ∧ cmd_in (Some c) "M" "m" = true) as [Hcmd HM].
    { apply elem_of_cons in Hc as [->|Hc]; [done|].
      apply list_elem_of_singleton in Hc as ->. done. }
    unfold step. rewrite Hcmd, HM.
    destruct nums as [|t [|t' nums]]; [done|..].
    + apply Forall_cons in Hnums as [[Ht [x Hx]] _]. simpl. unfold to_float.
      by rewrite Hx.
    + destruct Hshort as [|Hodd]; [done|].
      apply Forall_cons in Hnums as [[Ht [x Hx]] Hnums].
      apply Forall_cons in Hnums as [[_ [y Hy]] Hnums].
      simpl. unfold to_float. rewrite Hx. simpl. unfold to_float. rewrite Hy. simpl.
      rewrite moveto_pairs_odd; [done|done|]. by rewrite <- Nat.odd_succ_succ.
  - assert (Re.fullmatch_cmd c = true ∧ cmd_in (Some c) "M" "m" = false
            ∧ cmd_in (Some c) "L" "l" = true) as (Hcmd & HM & HL).
    { apply elem_of_cons in Hc as [->|Hc]; [done|].
      apply list_elem_of_singleton in Hc as ->. done. }
    unfold step. rewrite Hcmd, HM, HL.
    by rewrite lineto_pairs_odd.
Qed.

(** *** The error for an unsupported command *)

Lemma fullmatch_cmd_in t :
  Re.fullmatch_cmd t = true →
  cmd_in (Some t) "M" "m" || cmd_in (Some t) "L" "l" || cmd_in (Some t) "H" "h"
  || cmd_in (Some t) "V" "v" || cmd_in (Some t) "Z" "z" = true.
Proof.
  destruct t as [|c [|c' t]]; [done| |done]. simpl.
  destruct c as [[] [] [] [] [] [] [] []]; done.
Qed.

Lemma readnum_supported toks c : readnum toks ≠ Raise (UnsupportedCommand c).
Proof.
  destruct toks as [|t toks]; [done|]. simpl. unfold to_float. by destruct (float t).
Qed.

Lemma moveto_pairs_supported rel poly cur toks c :
  moveto_pairs rel poly cur toks ≠ Raise (UnsupportedCommand c).
Proof.
  remember (length toks) as n eqn:Hn. revert toks Hn poly cur.
  induction n as [n IH] using lt_wf_ind. intros toks -> poly cur.
  destruct toks as [|t [|t' toks2]]; simpl; [done|..].
  - destruct (Re.fullmatch_cmd t); [done|]. unfold to_float. by destruct (float t).
  - destruct (Re.fullmatch_cmd t); [done|]. unfold to_float.
    destruct (float t); [|done]. destruct (float t'); [|done].
    apply (IH (length toks2)); [simpl; lia|done].
Qed.

Lemma lineto_pairs_supported rel polys cur toks c :
  lineto_pairs rel polys cur toks ≠ Raise (UnsupportedCommand c).
Proof.
  remember (length toks) as n eqn:Hn. revert toks Hn polys cur.
  induction n as [n IH] using lt_wf_ind. intros toks -> polys cur.
  destruct toks as [|t [|t' toks2]]; simpl; [done|..].
  - destruct (Re.fullmatch_cmd t); [done|]. unfold to_float. by destruct (float t).
  - destruct (Re.fullmatch_cmd t); [done|]. unfold to_float.
    destruct (float t); [|done]. destruct (float t'); [|done].
    apply (IH (length toks2)); [simpl; lia|done].
Qed.

Lemma hlineto_nums_supported rel polys cur toks c :
  hlineto_nums rel polys cur toks ≠ Raise (UnsupportedCommand c).
Proof.
  revert polys cur. induction toks as [|t toks IH]; intros polys cur; simpl; [done|].
  destruct (Re.fullmatch_cmd t); [done|]. unfold to_float.
  destruct (float t); [|done]. apply IH.
Qed.

Lemma vlineto_nums_supported rel polys cur toks c :
  vlineto_nums rel polys cur toks ≠ Raise (UnsupportedCommand c).
Proof.
  revert polys cur. induction toks as [|t toks IH]; intros polys cur; simpl; [done|].
  destruct (Re.fullmatch_cmd t); [done|]. unfold to_float.
  destruct (float t); [|done]. apply IH.
Qed.

Lemma bind_supported {A B} (m : res A) (f : A → res B) c :
  m ≠ Raise (UnsupportedCommand c) → (∀ a, f a ≠ Raise (UnsupportedCommand c)) →
  m ≫= f ≠ Raise (UnsupportedCommand c).
Proof.
  destruct m as [a|e|]; [intros _ Hf; apply Hf|intros He _ [= ->]; by apply He|done].
Qed.

(** An iteration reports an unsupported command only when no command
    letter has been met. *)
Lemma step_unsupported st t toks c :
  known_cmd (cmd st) → step st t toks = Raise (UnsupportedCommand c) →
  c = None ∧ Re.fullmatch_cmd t = false ∧ cmd st = None.
Proof.
  intros Hst. unfold step.
  assert (known_cmd (if Re.fullmatch_cmd t then Some t else cmd st)) as Hk.
  { destruct (Re.fullmatch_cmd t) eqn:Ht; [|done]. right. by exists t. }
  assert ((if Re.fullmatch_cmd t then (Some t, toks) else (cmd st, t :: toks))
          = (if Re.fullmatch_cmd t then Some t else cmd st,
             if Re.fullmatch_cmd t then toks else t :: toks)) as ->
    by by destruct (Re.fullmatch_cmd t).
  set (k := if Re.fullmatch_cmd t then Some t else cmd st) in *.
  destruct (cmd_in k "M" "m") eqn:HM.
  { intros Hr. exfalso. revert Hr.
    apply bind_supported; [apply readnum_supported|intros [x toks2]].
    apply bind_supported; [apply readnum_supported|intros [y toks3]].
    apply bind_supported; [apply moveto_pairs_supported|by intros [[??]?]]. }
  destruct (cmd_in k "L" "l") eqn:HL.
  { intros Hr. exfalso. revert Hr.
    apply bind_supported; [apply lineto_pairs_supported|by intros [[??]?]]. }
  destruct (cmd_in k "H" "h") eqn:HH.
  { intros Hr. exfalso. revert Hr.
    apply bind_supported; [apply hlineto_nums_supported|by intros [[??]?]]. }
  destruct (cmd_in k "V" "v") eqn:HV.
  { intros Hr. exfalso. revert Hr.
    apply bind_supported; [apply vlineto_nums_supported|by intros [[??]?]]. }
  destruct (cmd_in k "Z" "z") eqn:HZ; [done|]. intros [= <-].
  destruct Hk as [Hk|(t' & Hk & Ht')].
  - split; [done|]. subst k. by destruct (Re.fullmatch_cmd t).
  - apply fullmatch_cmd_in in Ht'. rewrite <- Hk, HM, HL, HH, HV, HZ in Ht'. done.
Qed.

Lemma step_known_cmd st t toks st' toks' :
  known_cmd (cmd st) → step st t toks = Ret (st', toks') → known_cmd (cmd st').
Proof.
  intros Hst. unfold step.
  assert (known_cmd (if Re.fullmatch_cmd t then Some t else cmd st)) as Hk.
  { destruct (Re.fullmatch_cmd t) eqn:Ht; [|done]. right. by exists t. }
  assert ((if Re.fullmatch_cmd t then (Some t, toks) else (cmd st, t :: toks))
          = (if Re.fullmatch_cmd t then Some t else cmd st,
             if Re.fullmatch_cmd t then toks else t :: toks)) as ->
    by by destruct (Re.fullmatch_cmd t).
  set (k := if Re.fullmatch_cmd t then Some t else cmd st) in *.
  destruct (cmd_in k "M" "m").
  { intros ([x toks2] & _ & Hrest)%bind_ret.
    apply bind_ret in Hrest as ([y toks3] & _ & Hrest).
    by apply bind_ret in Hrest as ([[poly cur2] toks4] & _ & [= <- _]). }
  destruct (cmd_in k "L" "l").
  { by intros ([[polys' cur'] toks2] & _ & [= <- _])%bind_ret. }
  destruct (cmd_in k "H" "h").
  { by intros ([[polys' cur'] toks2] & _ & [= <- _])%bind_ret. }
  destruct (cmd_in k "V" "v").
  { by intros ([[polys' cur'] toks2] & _ & [= <- _])%bind_ret. }
  destruct (cmd_in k "Z" "z"); [|done]. intros [= <- _]. by rewrite closepath_cmd.
Qed.

Lemma run_unsupported n st toks c :
  known_cmd (cmd st) → run n st toks = Raise (UnsupportedCommand c) → c = None.
Proof.
  revert st toks. induction n as [|n IH]; intros st toks Hst Hrun.
  - by destruct toks.
  - destruct toks as [|t toks]; [done|]. simpl in Hrun.
    destruct (step st t toks) as [[st' toks']|e|] eqn:Hs; [| |done].
    + apply (IH st' toks'); [by eapply step_known_cmd|done].
    + injection Hrun as ->. by apply step_unsupported in Hs as [? _].
Qed.

(** *** Fuel *)

(** A run that ends, ends the same way with more fuel. *)
Lemma run_fuel n m st toks r :
  run n st toks = r → r ≠ Hang → (n ≤ m)%nat → run m st toks = r.
Proof.
  revert m st toks. induction n as [|n IH]; intros m st toks Hr Hne Hm.
  - destruct toks; simpl in Hr; [|congruence]. by destruct m.
  - destruct toks as [|t toks]; [by destruct m|].
    destruct m as [|m]; [lia|]. simpl in *.
    destruct (step st t toks) as [[st' toks']| |]; [|done..].
    apply IH; [done|done|lia].
Qed.

(** A closepath standing before a number is repeated for ever. *)
Lemma run_closepath_number n st t toks :
  cmd_in (cmd st) "Z" "z" = true → Re.fullmatch_cmd t = false →
  run n st (t :: toks) = Hang.
Proof.
  revert st. induction n as [|n IH]; intros st HZ Ht; [done|].
  simpl. destruct (step st t toks) as [[st' toks']| |] eqn:Hs; [|exfalso..|done].
  - assert (toks' = t :: toks ∧ cmd st' = cmd st) as [-> Hcmd].
    { revert Hs. unfold step. rewrite Ht.
      assert (cmd_in (cmd st) "M" "m" = false ∧ cmd_in (cmd st) "L" "l" = false
              ∧ cmd_in (cmd st) "H" "h" = false ∧ cmd_in (cmd st) "V" "v" = false)
        as (-> & -> & -> & ->).
      { revert HZ. unfold cmd_in. destruct (cmd st) as [c|]; [|done].
        intros [->%bool_decide_eq_true| ->%bool_decide_eq_true]%orb_true_iff; done. }
      rewrite HZ. intros [= <- <-]. split; [done|apply closepath_cmd]. }
    apply IH; [by rewrite Hcmd|done].
  - revert Hs. unfold step. rewrite Ht.
    assert (cmd_in (cmd st) "M" "m" = false ∧ cmd_in (cmd st) "L" "l" = false
            ∧ cmd_in (cmd st) "H" "h" = false ∧ cmd_in (cmd st) "V" "v" = false)
      as (-> & -> & -> & ->).
    { revert HZ. unfold cmd_in. destruct (cmd st) as [c|]; [|done].
      intros [->%bool_decide_eq_true| ->%bool_decide_eq_true]%orb_true_iff; done. }
    by rewrite HZ.
Qed.

(** One iteration for each token is enough: a run that hangs with that
    much fuel hangs with any. *)
Lemma run_hangs st toks :
  run (length toks) st toks = Hang → ∀ n, run n st toks = Hang.
Proof.
  assert (∀ k toks st, (length toks ≤ k)%nat → run k st toks = Hang →
            ∀ n, run n st toks = Hang) as Hgen.
  { clear st toks. induction k as [|k IH]; intros toks st Hk Hrun n.
    - destruct toks; [done|simpl in Hk; lia].
    - destruct toks as [|t toks]; [done|]. simpl in Hk, Hrun.
      destruct (step st t toks) as [[st' toks']| |] eqn:Hs;
        [|done|by apply step_never_hangs in Hs].
      pose proof (step_ret _ _ _ _ _ Hs) as ([Hle|(-> & Ht & HZ & Hcmd)] & _ & _).
      + destruct n as [|n]; [done|]. simpl. rewrite Hs. apply (IH toks' st'); [lia|done].
      + by apply run_closepath_number. }
  intros Hrun. by apply (Hgen (length toks)).
Qed.

(** The result of a run that ends is the one found with one iteration for
    each token. *)
Lemma run_enough n st toks r :
  run n st toks = r → r ≠ Hang → run (length toks) st toks = r.
Proof.
  intros Hr Hne.
  assert (run (length toks) st toks = Hang ∨ run (length toks) st toks ≠ Hang)
    as [Hh|Hh] by (destruct (run (length toks) st toks); [by right|by right|by left]).
  - rewrite (run_hangs _ _ Hh n) in Hr. congruence.
  - destruct (Nat.le_ge_cases n (length toks)) as [Hle|Hle].
    + by apply (run_fuel n).
    + pose proof (run_fuel _ n _ _ _ eq_refl Hh Hle). congruence.
Qed.

(** *** Invariants of the main loop *)

Lemma run_nonempty n st toks st' :
  run n st toks = Ret st' →
  Forall (λ poly, poly ≠ []) (polys st) → Forall (λ poly, poly ≠ []) (polys st').
Proof.
  revert st toks. induction n as [|n IH]; intros st toks Hrun Hst.
  - destruct toks; simpl in Hrun; congruence.
  - destruct toks as [|t toks]; simpl in Hrun; [congruence|].
    destruct (step st t toks) as [[st1 toks1]| |] eqn:Hs; [|done..].
    apply step_ret in Hs as (_ & Hne & _). by apply (IH _ _ Hrun), Hne.
Qed.

(** A run over tokens that are followed by a command letter goes on, from
    the state it ends in, with that letter. *)
Lemma run_app n k st toks st' c rest r :
  run n st toks = Ret st' → Re.fullmatch_cmd c = true →
  run k st' (c :: rest) = r → r ≠ Hang →
  run (n + k) st (toks ++ c :: rest) = r.
Proof.
  intros Hrun Hc Hr Hne. revert st toks Hrun.
  induction n as [|n IH]; intros st toks Hrun.
  - destruct toks; simpl in Hrun; [|done]. injection Hrun as ->. done.
  - destruct toks as [|t toks]; simpl in Hrun.
    + injection Hrun as ->. apply (run_fuel k); [done|done|lia].
    + destruct (step st t toks) as [[st1 toks1]| |] eqn:Hs; [|done..].
      apply step_ret in Hs as (_ & _ & Happ). simpl.
      rewrite (Happ c rest Hc). by apply IH.
Qed.

(** *** The closing pass *)

Lemma last_of_last {A} (l : list A) (d : A) : last l = Some (last_of l d) ∨ l = [].
Proof.
  destruct l as [|a l]; [by right|]. left. revert a.
  induction l as [|b l IH]; intros a; [done|]. apply (IH b).
Qed.

Lemma last_of_snoc {A} (l : list A) (a d : A) : last_of (l ++ [a]) d = a.
Proof. unfold last_of. by rewrite last_last. Qed.

(** A ring that is not empty ends, once closed, where it starts. *)
Lemma close_ring_closed (first : @point F) (poly : list (@point F)) :
  head (close_ring (first :: poly)) = Some first
  ∧ last (close_ring (first :: poly)) = Some first.
Proof.
  unfold close_ring. case_decide as Hd.
  - split; [done|]. by rewrite last_snoc.
  - split; [done|].
    destruct (last_of_last (first :: poly) first) as [Hl|]; [|done]. by rewrite Hl, <- Hd.
Qed.

(** The closing pass leaves a closed subpath as it is and appends its first
    point to any other. *)
Lemma close_ring_cases (poly : list (@point F)) :
  (head poly = last poly → close_ring poly = poly)
  ∧ (head poly ≠ last poly →
     ∃ first, head poly = Some first ∧ close_ring poly = poly ++ [first]).
Proof.
  destruct poly as [|first poly]; [done|].
  destruct (last_of_last (first :: poly) first) as [Hl|]; [|done].
  unfold close_ring. split.
  - intros Heq. rewrite decide_False; [done|].
    intros Hd. apply Hd. rewrite Hl in Heq. by injection Heq.
  - intros Hneq. exists first. split; [done|]. rewrite decide_True; [done|].
    intros Heq. apply Hneq. by rewrite Hl, <- Heq.
Qed.

End PathFacts.

(** * The properties of the specification *)

(** Equations between computed values of the exact instance are decided by
    evaluation. *)
Ltac evaluate :=
  match goal with
  | |- ?P => refine (bool_decide_eq_true_1 P _); vm_compute; reflexivity
  end.

(** ** The path data interpreter *)

(** C2.  Whenever [path_to_points] returns, each subpath it returns is not
    empty and ends at its first point; the subpaths returned are those the
    main loop leaves once all tokens are consumed, each one closed by the
    closing pass, which leaves a subpath already closed as it is and appends
    its first point to any other. *)
Theorem path_to_points_closed {F : Type} `{Number F} (d : string)
    (rings : list (list (@point F))) :
  path_to_points d = Ret rings →
  Forall (λ ring, ring ≠ [] ∧ head ring = last ring) rings
  ∧ ∃ st, main_loop d = Ret st
      ∧ rings = close_ring <$> polys st
      ∧ Forall (λ poly,
          (head poly = last poly → close_ring poly = poly)
          ∧ (head poly ≠ last poly →
             ∃ first, head poly = Some first ∧ close_ring poly = poly ++ [first]))
          (polys st).
Proof.
  unfold path_to_points. intros (st & Hrun & [= <-])%bind_ret.
  pose proof (run_nonempty _ _ _ _ Hrun (Forall_nil_2 _)) as Hne.
  split; [|exists st; split_and!; [done|done|]].
  - apply Forall_fmap. eapply Forall_impl; [exact Hne|]. intros [|first poly] Hp; [done|].
    destruct (close_ring_closed first poly) as [Hh Hl].
    split; [|by rewrite Hh, Hl]. intros Hnil. by rewrite Hnil in Hh.
  - apply Forall_forall. intros poly _. apply close_ring_cases.
Qed.

Lemma path_to_points_closed_witness :
  path_to_points "M0,0 L10,0 V10 M5,5"
  = Ret [[Exact.pt 0 0; Exact.pt 10 0; Exact.pt 10 10; Exact.pt 0 0]; [Exact.pt 5 5]]
  ∧ Forall (λ ring : list (@point Qc), ring ≠ [] ∧ head ring = last ring)
      [[Exact.pt 0 0; Exact.pt 10 0; Exact.pt 10 10; Exact.pt 0 0]; [Exact.pt 5 5]].
Proof.
  assert (path_to_points "M0,0 L10,0 V10 M5,5"
          = Ret [[Exact.pt 0 0; Exact.pt 10 0; Exact.pt 10 10; Exact.pt 0 0]; [Exact.pt 5 5]])
    as Heq by evaluate.
  split; [exact Heq|]. apply (path_to_points_closed _ _ Heq).
Defined.

(** ** Elements *)

Section ElementFacts.

Context {F : Type} `{Number F}.

Lemma path_to_points_empty : path_to_points (F:=F) "" = Ret [].
Proof. reflexivity. Qed.

(** A path element whose [d] is interpreted without failure adds its
    polygons, once its own transform has been read. *)
Lemma process_path outp el elems out (all_polys : list (list (@point F))) d polys tr :
  Str.endswith "path" (tag el) = true → get el "d" = Some d →
  path_to_points d = Ret polys → polys ≠ [] ∨ d ≠ "" →
  own_transform (get el "transform") = Ret tr →
  process outp (el :: elems) out all_polys
  = process outp elems out (all_polys ++ emit tr polys).
Proof.
  intros Htag Hd Hp Hne Htr. simpl. rewrite Htag, Hd. simpl.
  destruct d as [|c d]; [|by rewrite Hp, Htr].
  destruct Hne as [Hne|]; [|done]. exfalso. apply Hne.
  rewrite path_to_points_empty in Hp. by injection Hp.
Qed.

(** A path element whose [d] makes the interpreter raise is skipped with a
    warning, and the elements after it are processed. *)
Lemma process_path_raises outp el elems out (all_polys : list (list (@point F))) d ex :
  Str.endswith "path" (tag el) = true → get el "d" = Some d →
  path_to_points d = Raise ex →
  process outp (el :: elems) out all_polys
  = process outp elems (out ++ [SkippingPath ex]) all_polys.
Proof.
  intros Htag Hd Hp. simpl. rewrite Htag, Hd. simpl.
  destruct d as [|c d]; [|by rewrite Hp]. by rewrite path_to_points_empty in Hp.
Qed.

End ElementFacts.





(** C4.  On ["M0,0 L10,0 20,0 30,0"] the main loop leaves one subpath, with
    the vertices (0,0), (10,0), (20,0), (30,0): the pairs behind the first
    pair of [L] go to the same subpath.  The closing pass then appends
    (0,0). *)
Theorem implicit_lineto_repeat :
  (∃ st : @state Qc,
     main_loop "M0,0 L10,0 20,0 30,0" = Ret st
     ∧ polys st = [[Exact.pt 0 0; Exact.pt 10 0; Exact.pt 20 0; Exact.pt 30 0]])
  ∧ path_to_points "M0,0 L10,0 20,0 30,0"
    = Ret [[Exact.pt 0 0; Exact.pt 10 0; Exact.pt 20 0; Exact.pt 30 0; Exact.pt 0 0]].
Proof.
  split; [|evaluate].
  exists (State (Exact.pt 30 0) (Some (Exact.pt 0 0))
            [[Exact.pt 0 0; Exact.pt 10 0; Exact.pt 20 0; Exact.pt 30 0]] (Some "L")).
  split; [evaluate|done].
Qed.

(** C5.  ["M0,0 l10,0 l0,10 z"] is interpreted as the one ring (0,0),
    (10,0), (10,10), (0,0), each relative pair being added to the cursor, and
    the polygon written for a path with that data is (0,0), (10,0),
    (10,10). *)
Theorem relative_commands_ring :
  path_to_points "M0,0 l10,0 l0,10 z"
  = Ret [[Exact.pt 0 0; Exact.pt 10 0; Exact.pt 10 10; Exact.pt 0 0]]
  ∧ main ["svg2walkable.py"; "in.svg"; "out.json"]
      (Sample.only (Sample.svg [Sample.path "M0,0 l10,0 l0,10 z"]))
    = Outcome [Wrote "out.json" 1]
        (Done "out.json" [[Exact.pt 0 0; Exact.pt 10 0; Exact.pt 10 10]]).
Proof. split; evaluate. Qed.

(** Whatever the path data, the error for an unsupported command names no
    command: it is raised when a number comes before any command letter, and
    never for a letter of the data. *)
Lemma unsupported_command_is_none {F : Type} `{Number F} (d : string) (c : option string) :
  path_to_points (F:=F) d = Raise (UnsupportedCommand c) → c = None.
Proof.
  unfold path_to_points, main_loop.
  destruct (run _ _ _) as [st|e|] eqn:Hrun; [done| |done].
  intros [= ->]. apply run_unsupported in Hrun; [done|by left].
Qed.

(** C1.  The letter [C] never reaches the interpreter: [CMD.findall] passes
    over it, its six numbers are read as pairs of the moveto before it, and
    the path is written as a polygon of four points with no warning. *)
Theorem curve_letter_is_passed_over :
  Re.findall_CMD "M0,0 C1,2 3,4 5,6" = ["M"; "0"; "0"; "1"; "2"; "3"; "4"; "5"; "6"]
  ∧ path_to_points "M0,0 C1,2 3,4 5,6"
    = Ret [[Exact.pt 0 0; Exact.pt 1 2; Exact.pt 3 4; Exact.pt 5 6; Exact.pt 0 0]]
  ∧ main ["svg2walkable.py"; "in.svg"; "out.json"]
      (Sample.only (Sample.svg [Sample.path "M0,0 C1,2 3,4 5,6"]))
    = Outcome [Wrote "out.json" 1]
        (Done "out.json" [[Exact.pt 0 0; Exact.pt 1 2; Exact.pt 3 4; Exact.pt 5 6]]).
Proof. split_and!; [reflexivity|evaluate|evaluate]. Qed.

(** ** The command line *)

(** C3.  The selector written as the usage line writes it, [--select] and
    then [KEY=VALUE], ends the run with the complaint and status 2, and so
    does [--select=KEY=VALUE]; only the form [--select=KEY:VALUE] is
    parsed. *)
Theorem documented_select_is_rejected {F : Type} `{Number F}
    (prog inp outp : string) (more : list string) (parse : string → option element) :
  main (F:=F) (prog :: inp :: outp :: "--select" :: more) parse
  = Outcome [BadSelect] (Exit 2)
  ∧ main (F:=F) [prog; inp; outp; "--select=id=walkable"] parse
    = Outcome [BadSelect] (Exit 2)
  ∧ parse_select [prog; inp; outp; "--select=id:walkable"]
    = Some (Some "id", Some "walkable").
Proof. done. Qed.

(** ** Polygons and transforms *)

Section GeometryFacts.

Context {F : Type} `{Number F}.

Lemma accumulate_calls_app (tr : @transform F) items items' :
  accumulate_calls tr (items ++ items')
  = accumulate_calls tr items ≫= λ tr', accumulate_calls tr' items'.
Proof.
  revert tr. induction items as [|[kind group2] items IH]; intros tr; [done|].
  simpl. destruct (call_args group2) as [args| |]; [|done..]. apply IH.
Qed.

End GeometryFacts.

(** C7.  When the stripped [points] text is a sequence of pairs of literals,
    a run of commas and white space inside each pair and between pairs, the
    parser returns the points of these pairs in their order, closed: as they
    are when the first point is the last one, with the first point appended
    otherwise.  On ["0,0 10,0 10,10 0,10"] this is the ring (0,0), (10,0),
    (10,10), (0,10), (0,0), written as the polygon (0,0), (10,0), (10,10),
    (0,10). *)
Theorem polygon_points_ring :
  (∀ (F : Type) `(Number F) (s lead : string) (items : list Text.pair_item)
     (pts : list (@point F)),
     Str.strip s = lead +:+ Text.points_text items →
     Str.all Chars.is_sep lead = true → Text.points_wf items →
     pairs_to_points (Text.pairs_of items) = Ret pts →
     polygon_points_attr_to_list s = Ret (close_ring pts)
     ∧ (head pts = last pts → close_ring pts = pts)
     ∧ (head pts ≠ last pts →
        ∃ first, head pts = Some first ∧ close_ring pts = pts ++ [first]))
  ∧ polygon_points_attr_to_list "0,0 10,0 10,10 0,10"
    = Ret [Exact.pt 0 0; Exact.pt 10 0; Exact.pt 10 10; Exact.pt 0 10; Exact.pt 0 0]
  ∧ main ["svg2walkable.py"; "in.svg"; "out.json"]
      (Sample.only (Sample.svg [Sample.polygon "0,0 10,0 10,10 0,10"]))
    = Outcome [Wrote "out.json" 1]
        (Done "out.json" [[Exact.pt 0 0; Exact.pt 10 0; Exact.pt 10 10; Exact.pt 0 10]]).
Proof.
  split_and!; [|evaluate..].
  intros F HF s lead items pts Hs Hlead Hwf Hpts. split; [|apply close_ring_cases].
  unfold polygon_points_attr_to_list.
  by rewrite Hs, (ScanFacts.findall_pair_points _ _ Hlead Hwf), Hpts.
Qed.

Lemma polygon_points_ring_witness :
  polygon_points_attr_to_list "  ,1.5 ,  2e1  3,4 5 , 6  "
  = Ret [(Q2Qc (3 # 2), Q2Qc 20); Exact.pt 3 4; Exact.pt 5 6; (Q2Qc (3 # 2), Q2Qc 20)].
Proof.
  pose (items := [Text.PairItem "1.5" " ,  " "2e1" "  "; Text.PairItem "3" "," "4" " ";
                  Text.PairItem "5" " , " "6" ""]).
  assert (Text.points_wf items) as Hwf.
  { repeat split; try done; by apply NumFacts.fullmatch_num_literal. }
  assert (pairs_to_points (Text.pairs_of items)
          = Ret [(Q2Qc (3 # 2), Q2Qc 20); Exact.pt 3 4; Exact.pt 5 6]) as Hpts by evaluate.
  destruct polygon_points_ring as [Hgen _].
  destruct (Hgen Qc _ "  ,1.5 ,  2e1  3,4 5 , 6  " "," items _ eq_refl eq_refl Hwf Hpts)
    as (Hp & _ & _).
  rewrite Hp. evaluate.
Defined.



(** ** The choice of elements *)




(** * Further properties of the code *)

(** ** Rings and their output form *)

Section RingFacts.

Context {F : Type} `{Number F}.

Lemma removelast_fmap {A B} (f : A → B) (l : list A) :
  removelast (f <$> l) = f <$> removelast l.
Proof.
  induction l as [|a l IH]; [done|]. destruct l as [|b l]; [done|].
  change (f a :: removelast (f <$> b :: l) = f a :: (f <$> removelast (b :: l))).
  by rewrite IH.
Qed.

Lemma last_of_fmap {A B} (f : A → B) (l : list A) (d : A) :
  last_of (f <$> l) (f d) = f (last_of l d).
Proof.
  unfold last_of. revert d. induction l as [|a l IH]; intros d; [done|].
  destruct l as [|b l]; [done|]. apply (IH d).
Qed.

Lemma last_of_default {A} (l : list A) (d d' : A) : l ≠ [] → last_of l d = last_of l d'.
Proof.
  unfold last_of. induction l as [|a l IH]; [done|]. intros _.
  destruct l as [|b l]; [done|]. by apply IH.
Qed.

(** X1.  The closing pass does nothing to a ring it has closed: a [Z] at the end
    of the data and the closing pass after it add one closing point, not
    two. *)
Theorem close_ring_idempotent (poly : list (@point F)) :
  close_ring (close_ring poly) = close_ring poly.
Proof.
  destruct poly as [|first poly]; [done|].
  destruct (close_ring_closed first poly) as [Hh Hl].
  apply close_ring_cases. by rewrite Hh, Hl.
Qed.

(** The output form of a ring that ends where it starts is the transform of
    the ring without its last point. *)
Lemma drop_closing_closed (tr : @transform F) (ring : list (@point F)) :
  head ring = last ring →
  drop_closing (apply_simple_transform ring tr)
  = apply_simple_transform (removelast ring) tr.
Proof.
  intros Hring. destruct ring as [|first ring]; [done|].
  unfold apply_simple_transform.
  set (f := λ p : point, (fadd (fmul (sx tr) p.1) (tx tr), fadd (fmul (sy tr) p.2) (ty tr))).
  rewrite <- removelast_fmap.
  assert (f first = last_of (f <$> first :: ring) (f first)) as Hclosed.
  { rewrite last_of_fmap. f_equal.
    destruct (last_of_last (first :: ring) first) as [Hl|]; [|done].
    rewrite Hl in Hring. by injection Hring. }
  change (drop_closing (f <$> first :: ring))
    with (if decide (f first = last_of (f <$> first :: ring) (f first))
          then removelast (f <$> first :: ring) else f <$> first :: ring).
  by rewrite decide_True.
Qed.

Lemma main_loop_nonempty d (st : @state F) :
  main_loop d = Ret st → Forall (λ poly, poly ≠ []) (polys st).
Proof. intros Hrun. by apply (run_nonempty _ _ _ _ Hrun). Qed.


End RingFacts.


(** ** The polygon parser *)

Section PolygonFacts.

Context {F : Type} `{Number F}.

Lemma pair_literals s a b rest :
  Re.pair s = Some ((a, b), rest) → Re.literal a ∧ Re.literal b.
Proof.
  unfold Re.pair. destruct (Re.num s) as [[a' r]|] eqn:Ha; [|done].
  destruct (Re.seps1 r) as [[sp r1]|]; [|done].
  destruct (Re.num r1) as [[b' r2]|] eqn:Hb; [|done]. intros [= <- <- <-].
  apply NumFacts.num_spec in Ha as [_ Ha]. by apply NumFacts.num_spec in Hb as [_ Hb].
Qed.

Lemma findall_pair_literals s :
  Forall (λ p, Re.literal p.1 ∧ Re.literal p.2) (Re.findall_pair s).
Proof.
  unfold Re.findall_pair, Re.scan. generalize (String.length s) as n.
  intros n. revert s. induction n as [|n IH]; intros s; [constructor|].
  destruct s as [|c s]; [constructor|]. cbn [Re.scan_fuel].
  destruct (Re.pair (String c s)) as [[[a b] rest]|] eqn:Hp; [|apply IH].
  constructor; [|apply IH]. by apply pair_literals in Hp.
Qed.

Lemma pairs_to_points_literals (pairs : list (string * string)) :
  (∀ t, Re.fullmatch_num t = true → is_Some (float t)) →
  Forall (λ p, Re.literal p.1 ∧ Re.literal p.2) pairs →
  ∃ pts : list (@point F), pairs_to_points pairs = Ret pts ∧ length pts = length pairs.
Proof.
  intros Hfloat. induction 1 as [|[a b] pairs [Ha Hb] _ (pts & Hpts & Hlen)].
  - by exists [].
  - apply NumFacts.fullmatch_num_literal, Hfloat in Ha as [x Hx].
    apply NumFacts.fullmatch_num_literal, Hfloat in Hb as [y Hy].
    exists ((x, y) :: pts). simpl in *. unfold to_float. rewrite Hx, Hy. simpl.
    rewrite Hpts. simpl. by rewrite Hlen.
Qed.

(** X3.  The polygon parser never raises: whatever the text of the [points]
    attribute, it returns a ring that ends where it starts, with one point
    for each pair found and the closing point when the pairs do not close;
    a text in which no pair is found gives the empty ring. *)
Theorem polygon_points_never_raises (s : string) :
  (∀ t, Re.fullmatch_num t = true → is_Some (float t)) →
  ∃ pts : list (@point F),
    pairs_to_points (Re.findall_pair (Str.strip s)) = Ret pts
    ∧ length pts = length (Re.findall_pair (Str.strip s))
    ∧ polygon_points_attr_to_list s = Ret (close_ring pts)
    ∧ head (close_ring pts) = last (close_ring pts)
    ∧ (close_ring pts = [] ↔ Re.findall_pair (Str.strip s) = []).
Proof.
  intros Hfloat.
  destruct (pairs_to_points_literals _ Hfloat (findall_pair_literals (Str.strip s)))
    as (pts & Hpts & Hlen).
  exists pts. split_and!; [done|done|..].
  - unfold polygon_points_attr_to_list. by rewrite Hpts.
  - destruct pts as [|first pts]; [done|].
    destruct (close_ring_closed first pts) as [Hh Hl]. by rewrite Hh, Hl.
  - rewrite <- !length_zero_iff_nil, <- Hlen. destruct pts as [|first pts]; [done|].
    destruct (close_ring_closed first pts) as [Hh _].
    destruct (close_ring (first :: pts)); [done|]. simpl. lia.
Qed.

End PolygonFacts.

Lemma polygon_points_never_raises_witness :
  ∃ pts : list (@point Qc),
    polygon_points_attr_to_list "1,2 junk 3;4 5" = Ret (close_ring pts)
    ∧ length pts = 2%nat.
Proof.
  assert (∀ t, Re.fullmatch_num t = true → is_Some (float (F:=Qc) t)) as Hfloat.
  { intros t Ht. change (float t) with (Exact.float_of_literal t).
    unfold Exact.float_of_literal. rewrite Ht. by eexists. }
  destruct (polygon_points_never_raises (F:=Qc) "1,2 junk 3;4 5" Hfloat)
    as (pts & _ & Hlen & Hp & _).
  exists pts. split; [exact Hp|]. rewrite Hlen. vm_compute. reflexivity.
Defined.

(** ** Transforms *)

Section TransformFacts.

Context {F : Type} `{Number F}.

Implicit Types (tr : @transform F) (items : list (string * string)).

(** Translate calls leave the scale factors alone, and what they do to the
    offsets does not depend on the scale factors. *)
Lemma accumulate_translates a b x y items tr' :
  Forall (λ item, item.1 = "translate") items →
  accumulate_calls (Transform a b x y) items = Ret tr' →
  sx tr' = a ∧ sy tr' = b
  ∧ ∀ a' b', accumulate_calls (Transform a' b' x y) items
             = Ret (Transform a' b' (tx tr') (ty tr')).
Proof.
  intros Hitems. revert x y. induction Hitems as [|[k g] items Hk _ IH]; intros x y.
  - intros [= <-]. done.
  - simpl in *. subst k. destruct (call_args g) as [args| |]; [|done..]. simpl.
    unfold accumulate. rewrite decide_True by done.
    destruct args as [|u [|v args]]; simpl; intros Hrec;
      apply IH in Hrec as (? & ? & Hany); (split_and!; [done|done|]);
      intros a' b'; apply Hany.
Qed.

(** Scale calls leave the offsets alone, and what they do to the scale
    factors does not depend on the offsets. *)
Lemma accumulate_scales a b x y items tr' :
  Forall (λ item, item.1 = "scale") items →
  accumulate_calls (Transform a b x y) items = Ret tr' →
  tx tr' = x ∧ ty tr' = y
  ∧ ∀ x' y', accumulate_calls (Transform a b x' y') items
             = Ret (Transform (sx tr') (sy tr') x' y').
Proof.
  intros Hitems. revert a b. induction Hitems as [|[k g] items Hk _ IH]; intros a b.
  - intros [= <-]. done.
  - simpl in *. subst k. destruct (call_args g) as [args| |]; [|done..]. simpl.
    unfold accumulate. rewrite decide_False by done. rewrite decide_True by done.
    destruct args as [|u [|v args]]; simpl; intros Hrec;
      apply IH in Hrec as (? & ? & Hany); (split_and!; [done|done|]);
      intros x' y'; apply Hany.
Qed.

Lemma filter_kind (k : string) items :
  Forall (λ item, item.1 = k) (filter (λ item, item.1 = k) items).
Proof. apply Forall_forall. by intros item [? _]%list_elem_of_filter. Qed.

Lemma scales_frame tr tr1 items trs1 :
  Forall (λ item, item.1 = "scale") items →
  accumulate_calls tr1 items = Ret trs1 → sx tr = sx tr1 → sy tr = sy tr1 →
  ∃ trs, accumulate_calls tr items = Ret trs ∧ sx trs = sx trs1 ∧ sy trs = sy trs1.
Proof.
  destruct tr as [a b x y], tr1 as [a1 b1 x1 y1]. simpl. intros Hitems Hrun <- <-.
  destruct (accumulate_scales _ _ _ _ _ _ Hitems Hrun) as (_ & _ & Hany).
  eexists. split; [apply Hany|done].
Qed.

Lemma translates_frame tr tr1 items trt1 :
  Forall (λ item, item.1 = "translate") items →
  accumulate_calls tr1 items = Ret trt1 → tx tr = tx tr1 → ty tr = ty tr1 →
  ∃ trt, accumulate_calls tr items = Ret trt ∧ tx trt = tx trt1 ∧ ty trt = ty trt1.
Proof.
  destruct tr as [a b x y], tr1 as [a1 b1 x1 y1]. simpl. intros Hitems Hrun <- <-.
  destruct (accumulate_translates _ _ _ _ _ _ Hitems Hrun) as (_ & _ & Hany).
  eexists. split; [apply Hany|done].
Qed.

Lemma accumulate_translate_scale tr args :
  sx (accumulate tr "translate" args) = sx tr ∧ sy (accumulate tr "translate" args) = sy tr.
Proof. unfold accumulate. rewrite decide_True by done. by destruct args as [|u [|v args]]. Qed.

Lemma accumulate_scale_offsets tr args :
  tx (accumulate tr "scale" args) = tx tr ∧ ty (accumulate tr "scale" args) = ty tr.
Proof.
  unfold accumulate. rewrite decide_False by done. rewrite decide_True by done.
  by destruct args as [|u [|v args]].
Qed.

(** X4.  Scales and translations accumulate apart: the scale factors found are
    those of the scale calls alone, the offsets those of the translate calls
    alone, so moving a translate call across a scale call changes nothing
    (the offsets are not scaled). *)
Theorem scale_and_translate_apart tr items tr' :
  accumulate_calls tr items = Ret tr' →
  ∃ trs trt,
    accumulate_calls tr (filter (λ item, item.1 = "scale") items) = Ret trs
    ∧ accumulate_calls tr (filter (λ item, item.1 = "translate") items) = Ret trt
    ∧ tr' = Transform (sx trs) (sy trs) (tx trt) (ty trt).
Proof.
  revert tr. induction items as [|[k g] items IH]; intros tr.
  - intros [= <-]. exists tr, tr. by destruct tr.
  - simpl. destruct (call_args g) as [args| |] eqn:Hargs; [|done..]. simpl.
    intros (trs1 & trt1 & Hs & Ht & ->)%IH.
    destruct (decide (k = "translate")) as [->|Hnt]; [|destruct (decide (k = "scale")) as [->|Hns]].
    + rewrite filter_cons_False by done. rewrite filter_cons_True by done.
      destruct (accumulate_translate_scale tr args) as [Hsx Hsy].
      destruct (scales_frame tr _ _ _ (filter_kind "scale" items) Hs) as (trs & Hs' & Ea & Eb);
        [done|done|].
      exists trs, trt1. simpl. rewrite Hargs. simpl. split_and!; [done|done|].
      by rewrite Ea, Eb.
    + rewrite filter_cons_True by done. rewrite filter_cons_False by done.
      destruct (accumulate_scale_offsets tr args) as [Htx Hty].
      destruct (translates_frame tr _ _ _ (filter_kind "translate" items) Ht) as (trt & Ht' & Ex & Ey);
        [done|done|].
      exists trs1, trt. simpl. rewrite Hargs. simpl. split_and!; [done|done|].
      by rewrite Ex, Ey.
    + rewrite !filter_cons_False by done.
      assert (accumulate tr k args = tr) as Hsame
        by (unfold accumulate; by rewrite !decide_False).
      rewrite Hsame in Hs, Ht. by exists trs1, trt1.
Qed.

End TransformFacts.

Lemma scale_and_translate_apart_witness :
  own_transform (Some "scale(2) translate(5,5) scale(3,4)")
  = Ret (Transform (Q2Qc 6) (Q2Qc 8) (Q2Qc 5) (Q2Qc 5))
  ∧ ∃ trs trt : @transform Qc,
      own_transform (Some "scale(2)scale(3,4)") = Ret trs
      ∧ own_transform (Some "translate(5,5)") = Ret trt
      ∧ Transform (Q2Qc 6) (Q2Qc 8) (Q2Qc 5) (Q2Qc 5)
        = Transform (sx trs) (sy trs) (tx trt) (ty trt).
Proof.
  assert (accumulate_calls identity [("scale", "2"); ("translate", "5,5"); ("scale", "3,4")]
          = Ret (Transform (Q2Qc 6) (Q2Qc 8) (Q2Qc 5) (Q2Qc 5))) as Hrun by evaluate.
  split; [exact Hrun|].
  destruct (scale_and_translate_apart _ _ _ Hrun) as (trs & trt & Hs & Ht & Heq).
  by exists trs, trt.
Defined.

Section ChainFacts.

Context {F : Type} `{Number F}.

Lemma transform_chain_loop_calls (tr : @transform F) (chain : list element) :
  transform_chain_loop tr chain = accumulate_calls tr (chain_calls chain).
Proof.
  revert tr. induction chain as [|el chain IH]; intros tr; [done|].
  unfold chain_calls. cbn [transform_chain_loop flat_map].
  rewrite accumulate_calls_app.
  assert ((if truthy (get el "transform")
           then accumulate_calls tr (Re.finditer_call (default "" (get el "transform")))
           else mret tr)
          = accumulate_calls tr (Re.finditer_call (default "" (get el "transform")))) as ->.
  { by destruct (get el "transform") as [[|c t]|]. }
  destruct (accumulate_calls tr _) as [tr'| |]; [|done..]. apply IH.
Qed.

(** X5.  [parse_transform_chain] reads the calls of the element first and then
    those of each ancestor, as one run of the accumulators; for an element
    without [getparent], which is every element of the program, it finds
    what [main] finds with its own copy of the loop. *)
Theorem parse_transform_chain_calls (el : element) (ancestors : list element) :
  parse_transform_chain (F:=F) (el :: ancestors)
  = (own_transform (get el "transform")
     ≫= λ tr, accumulate_calls tr (chain_calls ancestors))
  ∧ parse_transform_chain (F:=F) [el] = own_transform (get el "transform").
Proof.
  unfold parse_transform_chain. rewrite !transform_chain_loop_calls.
  assert (accumulate_calls (F:=F) identity (Re.finditer_call (default "" (get el "transform")))
          = own_transform (get el "transform")) as Hown.
  { unfold own_transform. by destruct (get el "transform"). }
  split.
  - unfold chain_calls. cbn [flat_map]. by rewrite accumulate_calls_app, Hown.
  - unfold chain_calls. cbn [flat_map]. by rewrite app_nil_r, Hown.
Qed.

End ChainFacts.

(** ** The tokens an iteration takes *)

Section TokenFacts.

Context {F : Type} `{Number F}.

Implicit Types (toks : list string) (polys : list (list (@point F))) (st : @state F).

Lemma to_float_ret t (x : F) : to_float t = Ret x → is_Some (float t).
Proof. unfold to_float. destruct (float t); [by eexists|done]. Qed.

Lemma to_float_raise t (e : exn) :
  to_float (F:=F) t = Raise e → e = FloatError t ∧ float (F:=F) t = None.
Proof. unfold to_float. destruct (float t) eqn:Ht; [done|]. by intros [= <-]. Qed.

Lemma loop_takes_cons t toks toks' :
  is_Some (float (F:=F) t) → loop_takes (F:=F) toks toks' → loop_takes (F:=F) (t :: toks) toks'.
Proof.
  intros Ht (taken & -> & Htaken & Hat). exists (t :: taken).
  split_and!; [done| |done]. by constructor.
Qed.

Lemma append_last_length polys (pt : @point F) :
  length (append_last polys pt) = length polys.
Proof.
  induction polys as [|poly polys IH]; [done|]. simpl.
  destruct polys as [|poly' polys]; [done|]. simpl in *. by rewrite IH.
Qed.

Lemma loop_takes_nil toks : at_command toks → loop_takes (F:=F) toks toks.
Proof. intros Hat. by exists []. Qed.

Lemma moveto_pairs_takes rel poly cur toks poly' cur' toks' :
  moveto_pairs rel poly cur toks = Ret (poly', cur', toks') → loop_takes (F:=F) toks toks'.
Proof.
  remember (length toks) as n eqn:Hn. revert toks Hn poly cur.
  induction n as [n IH] using lt_wf_ind. intros toks -> poly cur.
  destruct toks as [|t toks1]; simpl; [intros [= <- <- <-]; by apply loop_takes_nil|].
  destruct (Re.fullmatch_cmd t) eqn:Ht; [intros [= <- <- <-]; by apply loop_takes_nil|].
  destruct (to_float t) as [x| |] eqn:Hx; [|done..].
  destruct toks1 as [|t' toks2]; [done|].
  destruct (to_float t') as [y| |] eqn:Hy; [|done..]. intros Hrec.
  apply (IH (length toks2)) in Hrec; [|simpl; lia|done].
  by apply loop_takes_cons, loop_takes_cons; eauto using to_float_ret.
Qed.

Lemma lineto_pairs_takes rel polys cur toks polys' cur' toks' :
  lineto_pairs rel polys cur toks = Ret (polys', cur', toks') →
  loop_takes (F:=F) toks toks' ∧ length polys' = length polys.
Proof.
  remember (length toks) as n eqn:Hn. revert toks Hn polys cur.
  induction n as [n IH] using lt_wf_ind. intros toks -> polys cur.
  destruct toks as [|t toks1]; simpl; [intros [= <- <- <-]; split; [by apply loop_takes_nil|done]|].
  destruct (Re.fullmatch_cmd t) eqn:Ht; [intros [= <- <- <-]; split; [by apply loop_takes_nil|done]|].
  destruct (to_float t) as [x| |] eqn:Hx; [|done..].
  destruct toks1 as [|t' toks2]; [done|].
  destruct (to_float t') as [y| |] eqn:Hy; [|done..]. intros Hrec.
  apply (IH (length toks2)) in Hrec as [Htakes Hlen]; [|simpl; lia|done].
  split; [by apply loop_takes_cons, loop_takes_cons; eauto using to_float_ret|].
  by rewrite Hlen, append_last_length.
Qed.

Lemma hlineto_nums_takes rel polys cur toks polys' cur' toks' :
  hlineto_nums rel polys cur toks = Ret (polys', cur', toks') →
  loop_takes (F:=F) toks toks' ∧ length polys' = length polys.
Proof.
  revert polys cur. induction toks as [|t toks1 IH]; intros polys cur; simpl.
  { intros [= <- <- <-]. split; [by apply loop_takes_nil|done]. }
  destruct (Re.fullmatch_cmd t) eqn:Ht; [intros [= <- <- <-]; split; [by apply loop_takes_nil|done]|].
  destruct (to_float t) as [x| |] eqn:Hx; [|done..]. intros Hrec.
  apply IH in Hrec as [Htakes Hlen].
  split; [by apply loop_takes_cons; eauto using to_float_ret|].
  by rewrite Hlen, append_last_length.
Qed.

Lemma vlineto_nums_takes rel polys cur toks polys' cur' toks' :
  vlineto_nums rel polys cur toks = Ret (polys', cur', toks') →
  loop_takes (F:=F) toks toks' ∧ length polys' = length polys.
Proof.
  revert polys cur. induction toks as [|t toks1 IH]; intros polys cur; simpl.
  { intros [= <- <- <-]. split; [by apply loop_takes_nil|done]. }
  destruct (Re.fullmatch_cmd t) eqn:Ht; [intros [= <- <- <-]; split; [by apply loop_takes_nil|done]|].
  destruct (to_float t) as [y| |] eqn:Hx; [|done..]. intros Hrec.
  apply IH in Hrec as [Htakes Hlen].
  split; [by apply loop_takes_cons; eauto using to_float_ret|].
  by rewrite Hlen, append_last_length.
Qed.

Lemma loop_error_cons t toks e : loop_error (F:=F) toks e → loop_error (F:=F) (t :: toks) e.
Proof.
  intros [->|(s & -> & Hs & Hnone)]; [by left|]. right. exists s.
  split_and!; [done| |done]. by apply elem_of_cons; right.
Qed.

Lemma loop_error_head t toks e : to_float (F:=F) t = Raise e → loop_error (F:=F) (t :: toks) e.
Proof.
  intros [-> Hnone]%to_float_raise. right. exists t.
  split_and!; [done| |done]. by apply elem_of_cons; left.
Qed.

Lemma moveto_pairs_raises rel poly cur toks e :
  moveto_pairs rel poly cur toks = Raise e → loop_error (F:=F) toks e.
Proof.
  remember (length toks) as n eqn:Hn. revert toks Hn poly cur.
  induction n as [n IH] using lt_wf_ind. intros toks -> poly cur.
  destruct toks as [|t toks1]; simpl; [done|].
  destruct (Re.fullmatch_cmd t) eqn:Ht; [done|].
  destruct (to_float t) as [x|e'|] eqn:Hx; [|intros [= <-]; by apply loop_error_head|done].
  destruct toks1 as [|t' toks2]; [intros [= <-]; by left|].
  destruct (to_float t') as [y|e'|] eqn:Hy;
    [|intros [= <-]; by apply loop_error_cons, loop_error_head|done].
  intros Hrec. apply (IH (length toks2)) in Hrec; [|simpl; lia|done].
  by apply loop_error_cons, loop_error_cons.
Qed.

Lemma lineto_pairs_raises rel polys cur toks e :
  lineto_pairs rel polys cur toks = Raise e → loop_error (F:=F) toks e.
Proof.
  remember (length toks) as n eqn:Hn. revert toks Hn polys cur.
  induction n as [n IH] using lt_wf_ind. intros toks -> polys cur.
  destruct toks as [|t toks1]; simpl; [done|].
  destruct (Re.fullmatch_cmd t) eqn:Ht; [done|].
  destruct (to_float t) as [x|e'|] eqn:Hx; [|intros [= <-]; by apply loop_error_head|done].
  destruct toks1 as [|t' toks2]; [intros [= <-]; by left|].
  destruct (to_float t') as [y|e'|] eqn:Hy;
    [|intros [= <-]; by apply loop_error_cons, loop_error_head|done].
  intros Hrec. apply (IH (length toks2)) in Hrec; [|simpl; lia|done].
  by apply loop_error_cons, loop_error_cons.
Qed.

Lemma hlineto_nums_raises rel polys cur toks e :
  hlineto_nums rel polys cur toks = Raise e → loop_error (F:=F) toks e.
Proof.
  revert polys cur. induction toks as [|t toks1 IH]; intros polys cur; simpl; [done|].
  destruct (Re.fullmatch_cmd t) eqn:Ht; [done|].
  destruct (to_float t) as [x|e'|] eqn:Hx; [|intros [= <-]; by apply loop_error_head|done].
  intros Hrec%IH. by apply loop_error_cons.
Qed.

Lemma vlineto_nums_raises rel polys cur toks e :
  vlineto_nums rel polys cur toks = Raise e → loop_error (F:=F) toks e.
Proof.
  revert polys cur. induction toks as [|t toks1 IH]; intros polys cur; simpl; [done|].
  destruct (Re.fullmatch_cmd t) eqn:Ht; [done|].
  destruct (to_float t) as [x|e'|] eqn:Hx; [|intros [= <-]; by apply loop_error_head|done].
  intros Hrec%IH. by apply loop_error_cons.
Qed.

Lemma readnum_raises toks e : readnum toks = Raise e → loop_error (F:=F) toks e.
Proof.
  destruct toks as [|t toks]; simpl; [intros [= <-]; by left|].
  destruct (to_float t) as [x|e'|] eqn:Hx; [done| |done].
  intros [= <-]. by apply loop_error_head.
Qed.

Lemma bind_raise {A B} (m : res A) (f : A → res B) e :
  m ≫= f = Raise e → m = Raise e ∨ ∃ a, m = Ret a ∧ f a = Raise e.
Proof. destruct m as [a|e'|]; [right; by exists a|intros [= ->]; by left|done]. Qed.

Lemma loop_takes_suffix toks toks' : loop_takes (F:=F) toks toks' → ∃ pre, toks = pre ++ toks'.
Proof. intros (taken & -> & _). by exists taken. Qed.

Lemma ensure_poly_length polys (cur : @point F) :
  polys ≠ [] → length (ensure_poly polys cur) = length polys.
Proof. by destruct polys. Qed.

Lemma closepath_length st c : length (polys (closepath st c)) = length (polys st).
Proof.
  unfold closepath. destruct (last (polys st)) as [[|first poly]|]; [done| |done].
  simpl. case_decide; [|done]. apply append_last_length.
Qed.

(** What an iteration that returns has done: the tokens left are a suffix
    of those it found and the command is set; entered at a command letter,
    it has taken that letter and tokens that [float] read; a moveto has
    added one subpath and nothing else changes the number of subpaths that
    is not zero; except after a closepath a command letter comes next. *)
Lemma step_takes st t toks st' toks' :
  step st t toks = Ret (st', toks') →
  (∃ pre, t :: toks = pre ++ toks')
  ∧ cmd st' ≠ None
  ∧ (Re.fullmatch_cmd t = true →
       (∃ taken, toks = taken ++ toks' ∧ Forall (λ t, is_Some (float (F:=F) t)) taken)
       ∧ (cmd_in (Some t) "Z" "z" = false → at_command toks')
       ∧ (is_moveto t = true → length (polys st') = S (length (polys st)))
       ∧ (is_moveto t = false → polys st ≠ [] → length (polys st') = length (polys st))).
Proof.
  unfold step, is_moveto.
  destruct (Re.fullmatch_cmd t) eqn:Ht.
  - destruct (cmd_in (Some t) "M" "m") eqn:HM; [|destruct (cmd_in (Some t) "L" "l") eqn:HL;
      [|destruct (cmd_in (Some t) "H" "h") eqn:HH; [|destruct (cmd_in (Some t) "V" "v") eqn:HV;
      [|destruct (cmd_in (Some t) "Z" "z") eqn:HZ; [|done]]]]].
    + intros ([x toks2] & Hx & Hrest)%bind_ret.
      apply bind_ret in Hrest as ([y toks3] & Hy & Hrest).
      apply bind_ret in Hrest as ([[poly cur2] toks4] & Hloop & [= <- <-]).
      apply readnum_ret in Hx as (tx & -> & Hx). apply readnum_ret in Hy as (ty & -> & Hy).
      apply moveto_pairs_takes in Hloop.
      pose proof (loop_takes_cons _ _ _ (to_float_ret _ _ Hx)
                    (loop_takes_cons _ _ _ (to_float_ret _ _ Hy) Hloop))
        as (taken & Htaken & Hfloat & Hat).
      split_and!; [exists (t :: taken); by rewrite Htaken|done|]. intros _.
      split_and!; [by exists taken|done| |done].
      intros _. simpl. rewrite length_app. simpl. lia.
    + intros ([[polys' cur'] toks2] & Hloop & [= <- <-])%bind_ret.
      apply lineto_pairs_takes in Hloop as [(taken & Htaken & Hfloat & Hat) Hlen].
      split_and!; [exists (t :: taken); by rewrite Htaken|done|]. intros _.
      split_and!; [by exists taken|done|done|].
      intros _ Hne. simpl. by rewrite Hlen, ensure_poly_length.
    + intros ([[polys' cur'] toks2] & Hloop & [= <- <-])%bind_ret.
      apply hlineto_nums_takes in Hloop as [(taken & Htaken & Hfloat & Hat) Hlen].
      split_and!; [exists (t :: taken); by rewrite Htaken|done|]. intros _.
      split_and!; [by exists taken|done|done|].
      intros _ Hne. simpl. by rewrite Hlen, ensure_poly_length.
    + intros ([[polys' cur'] toks2] & Hloop & [= <- <-])%bind_ret.
      apply vlineto_nums_takes in Hloop as [(taken & Htaken & Hfloat & Hat) Hlen].
      split_and!; [exists (t :: taken); by rewrite Htaken|done|]. intros _.
      split_and!; [by exists taken|done|done|].
      intros _ Hne. simpl. by rewrite Hlen, ensure_poly_length.
    + intros [= <- <-].
      split_and!; [by exists [t]|by rewrite closepath_cmd|]. intros _.
      split_and!; [by exists []|done|done|].
      intros _ _. apply closepath_length.
  - destruct (cmd_in (cmd st) "M" "m") eqn:HM; [|destruct (cmd_in (cmd st) "L" "l") eqn:HL;
      [|destruct (cmd_in (cmd st) "H" "h") eqn:HH; [|destruct (cmd_in (cmd st) "V" "v") eqn:HV;
      [|destruct (cmd_in (cmd st) "Z" "z") eqn:HZ; [|done]]]]].
    + intros ([x toks2] & Hx & Hrest)%bind_ret.
      apply bind_ret in Hrest as ([y toks3] & Hy & Hrest).
      apply bind_ret in Hrest as ([[poly cur2] toks4] & Hloop & [= <- <-]).
      apply readnum_ret in Hx as (tx & [= <- <-] & Hx). apply readnum_ret in Hy as (ty & -> & Hy).
      apply moveto_pairs_takes, loop_takes_suffix in Hloop as (pre & ->).
      split_and!; [by exists (t :: ty :: pre)| |done].
      simpl. intros Hnone. by rewrite Hnone in HM.
    + intros ([[polys' cur'] toks2] & Hloop & [= <- <-])%bind_ret.
      apply lineto_pairs_takes in Hloop as [Hloop%loop_takes_suffix _].
      split_and!; [done| |done]. simpl. intros Hnone. by rewrite Hnone in HL.
    + intros ([[polys' cur'] toks2] & Hloop & [= <- <-])%bind_ret.
      apply hlineto_nums_takes in Hloop as [Hloop%loop_takes_suffix _].
      split_and!; [done| |done]. simpl. intros Hnone. by rewrite Hnone in HH.
    + intros ([[polys' cur'] toks2] & Hloop & [= <- <-])%bind_ret.
      apply vlineto_nums_takes in Hloop as [Hloop%loop_takes_suffix _].
      split_and!; [done| |done]. simpl. intros Hnone. by rewrite Hnone in HV.
    + intros [= <- <-]. split_and!; [by exists []| |done].
      rewrite closepath_cmd. intros Hnone. by rewrite Hnone in HZ.
Qed.

(** The errors of an iteration. *)
Lemma step_raises st t toks e :
  step st t toks = Raise e →
  loop_error (F:=F) (t :: toks) e
  ∨ (e = UnsupportedCommand (if Re.fullmatch_cmd t then Some t else cmd st)
     ∧ cmd_in (if Re.fullmatch_cmd t then Some t else cmd st) "M" "m" = false
     ∧ cmd_in (if Re.fullmatch_cmd t then Some t else cmd st) "L" "l" = false
     ∧ cmd_in (if Re.fullmatch_cmd t then Some t else cmd st) "H" "h" = false
     ∧ cmd_in (if Re.fullmatch_cmd t then Some t else cmd st) "V" "v" = false
     ∧ cmd_in (if Re.fullmatch_cmd t then Some t else cmd st) "Z" "z" = false).
Proof.
  unfold step.
  assert ((if Re.fullmatch_cmd t then (Some t, toks) else (cmd st, t :: toks))
          = (if Re.fullmatch_cmd t then Some t else cmd st,
             if Re.fullmatch_cmd t then toks else t :: toks)) as ->
    by by destruct (Re.fullmatch_cmd t).
  assert (∀ e', loop_error (F:=F) (if Re.fullmatch_cmd t then toks else t :: toks) e' →
                loop_error (F:=F) (t :: toks) e') as Hup.
  { intros e'. destruct (Re.fullmatch_cmd t); [apply loop_error_cons|done]. }
  set (k := if Re.fullmatch_cmd t then Some t else cmd st) in *.
  set (toks1 := if Re.fullmatch_cmd t then toks else t :: toks) in *.
  destruct (cmd_in k "M" "m") eqn:HM; [|destruct (cmd_in k "L" "l") eqn:HL;
    [|destruct (cmd_in k "H" "h") eqn:HH; [|destruct (cmd_in k "V" "v") eqn:HV;
    [|destruct (cmd_in k "Z" "z") eqn:HZ; [done|]]]]].
  - intros [Hr|([x toks2] & Hx & Hr)]%bind_raise; [left; by apply Hup, readnum_raises|].
    apply readnum_ret in Hx as (tx & Htoks1 & Hx).
    apply bind_raise in Hr as [Hr|([y toks3] & Hy & Hr)].
    { left. apply Hup. rewrite Htoks1. by apply loop_error_cons, readnum_raises. }
    apply readnum_ret in Hy as (ty & -> & Hy).
    apply bind_raise in Hr as [Hr|([[poly cur2] toks4] & _ & Hr)]; [|done].
    left. apply Hup. rewrite Htoks1.
    by apply loop_error_cons, loop_error_cons, (moveto_pairs_raises _ _ _ _ _ Hr).
  - intros [Hr|([[polys' cur'] toks2] & _ & Hr)]%bind_raise; [|done].
    left. by apply Hup, (lineto_pairs_raises _ _ _ _ _ Hr).
  - intros [Hr|([[polys' cur'] toks2] & _ & Hr)]%bind_raise; [|done].
    left. by apply Hup, (hlineto_nums_raises _ _ _ _ _ Hr).
  - intros [Hr|([[polys' cur'] toks2] & _ & Hr)]%bind_raise; [|done].
    left. by apply Hup, (vlineto_nums_raises _ _ _ _ _ Hr).
  - intros [= <-]. by right.
Qed.

End TokenFacts.

(** ** The main loop as a whole *)

Section LoopFacts.

Context {F : Type} `{Number F}.

Implicit Types (st : @state F) (toks : list string).

Lemma cmd_in_closepath k :
  cmd_in k "Z" "z" = true →
  cmd_in k "M" "m" = false ∧ cmd_in k "L" "l" = false
  ∧ cmd_in k "H" "h" = false ∧ cmd_in k "V" "v" = false.
Proof.
  unfold cmd_in. destruct k as [c|]; [|done].
  intros [->%bool_decide_eq_true| ->%bool_decide_eq_true]%orb_true_iff; done.
Qed.

Lemma is_moveto_cmd t : is_moveto t = true → Re.fullmatch_cmd t = true.
Proof.
  unfold is_moveto, cmd_in.
  intros [[= ->]%bool_decide_eq_true|[= ->]%bool_decide_eq_true]%orb_true_iff; done.
Qed.

Lemma cmd_not_num t : Re.fullmatch_cmd t = true → Re.fullmatch_num t = false.
Proof.
  destruct t as [|c [|c' t]]; [done| |done]. simpl.
  destruct c as [[] [] [] [] [] [] [] []]; intros Hc; try discriminate Hc; reflexivity.
Qed.

(** The command an iteration leaves, and the tokens a closepath leaves. *)
Lemma step_cmd st t toks st' toks' :
  step st t toks = Ret (st', toks') →
  cmd st' = (if Re.fullmatch_cmd t then Some t else cmd st)
  ∧ (cmd_in (cmd st') "Z" "z" = true →
     toks' = if Re.fullmatch_cmd t then toks else t :: toks).
Proof.
  unfold step.
  assert ((if Re.fullmatch_cmd t then (Some t, toks) else (cmd st, t :: toks))
          = (if Re.fullmatch_cmd t then Some t else cmd st,
             if Re.fullmatch_cmd t then toks else t :: toks)) as ->
    by by destruct (Re.fullmatch_cmd t).
  set (k := if Re.fullmatch_cmd t then Some t else cmd st) in *.
  set (toks1 := if Re.fullmatch_cmd t then toks else t :: toks) in *.
  destruct (cmd_in k "Z" "z") eqn:HZ.
  - destruct (cmd_in_closepath _ HZ) as (-> & -> & -> & ->).
    intros [= <- <-]. by rewrite closepath_cmd.
  - assert (cmd st' = k → cmd st' = k ∧ (cmd_in (cmd st') "Z" "z" = true → toks' = toks1))
      as Hk by (intros Hk; split; [done|]; by rewrite Hk, HZ).
    destruct (cmd_in k "M" "m").
    { intros ([x toks2] & _ & Hrest)%bind_ret.
      apply bind_ret in Hrest as ([y toks3] & _ & Hrest).
      apply bind_ret in Hrest as ([[poly cur2] toks4] & _ & [= <- _]). by apply Hk. }
    destruct (cmd_in k "L" "l").
    { intros ([[polys' cur'] toks2] & _ & [= <- _])%bind_ret. by apply Hk. }
    destruct (cmd_in k "H" "h").
    { intros ([[polys' cur'] toks2] & _ & [= <- _])%bind_ret. by apply Hk. }
    destruct (cmd_in k "V" "v"); [|done].
    intros ([[polys' cur'] toks2] & _ & [= <- _])%bind_ret. by apply Hk.
Qed.

Lemma loop_error_app pre toks e : loop_error (F:=F) toks e → loop_error (F:=F) (pre ++ toks) e.
Proof. induction pre as [|t pre IH]; [done|]. intros He. by apply loop_error_cons, IH. Qed.

(** The errors of a run: those of the loops over numbers, or the
    unsupported command of a first token that is no command letter. *)
Lemma run_raises n st toks e :
  known_cmd (cmd st) → run n st toks = Raise e →
  loop_error (F:=F) toks e
  ∨ (e = UnsupportedCommand None ∧ cmd st = None
     ∧ ∃ t rest, toks = t :: rest ∧ Re.fullmatch_cmd t = false).
Proof.
  revert st toks. induction n as [|n IH]; intros st toks Hst Hrun.
  - by destruct toks.
  - destruct toks as [|t toks]; [done|]. simpl in Hrun.
    destruct (step st t toks) as [[st' toks']|e'|] eqn:Hs; [| |done].
    + pose proof (step_takes _ _ _ _ _ Hs) as ((pre & Hpre) & Hsome & _).
      destruct (IH st' toks' (step_known_cmd _ _ _ _ _ Hst Hs) Hrun)
        as [He|(_ & Hnone & _)]; [|done].
      left. rewrite Hpre. by apply loop_error_app.
    + injection Hrun as ->. pose proof Hs as [He|(-> & _)]%step_raises; [by left|].
      right. apply step_unsupported in Hs as (_ & Ht & Hnone); [|done].
      rewrite Ht, Hnone. split_and!; [done|done|]. by exists t, toks.
Qed.

(** With no command letter met and a number first, the first iteration
    raises. *)
Lemma run_number_first n toks t rest st :
  cmd st = None → toks = t :: rest → Re.fullmatch_cmd t = false →
  run (S n) st toks = Raise (UnsupportedCommand None).
Proof. intros Hnone -> Ht. simpl. unfold step. by rewrite Ht, Hnone. Qed.

(** A run that hangs has met a closepath standing before a number. *)
Lemma run_hang_closepath k st toks :
  (length toks ≤ k)%nat → run k st toks = Hang →
  (cmd_in (cmd st) "Z" "z" = true ∧ ∃ t rest, toks = t :: rest ∧ Re.fullmatch_cmd t = false)
  ∨ ∃ pre z t rest, toks = pre ++ z :: t :: rest
      ∧ cmd_in (Some z) "Z" "z" = true ∧ Re.fullmatch_cmd t = false.
Proof.
  revert st toks. induction k as [|k IH]; intros st toks Hk Hrun.
  - destruct toks; [done|simpl in Hk; lia].
  - destruct toks as [|t toks]; [done|]. simpl in Hk, Hrun.
    destruct (step st t toks) as [[st' toks']| |] eqn:Hs;
      [|done|by apply step_never_hangs in Hs].
    pose proof (step_ret _ _ _ _ _ Hs) as ([Hle|(-> & Ht & HZ & Hcmd)] & _ & _).
    + pose proof (step_takes _ _ _ _ _ Hs) as ((pre0 & Hpre0) & _ & _).
      pose proof (step_cmd _ _ _ _ _ Hs) as [Hcmd Htoks'].
      destruct (IH st' toks') as [(HZ & t' & rest' & -> & Ht')|(pre & z & t' & rest & -> & HZ & Ht')];
        [lia|done| |].
      * specialize (Htoks' HZ). destruct (Re.fullmatch_cmd t) eqn:Ht.
        -- right. exists [], t, t', rest'. rewrite Hcmd in HZ. by rewrite Htoks'.
        -- simpl in Hle. injection Htoks' as -> ->. simpl in Hle. lia.
      * right. exists (pre0 ++ pre), z, t', rest. by rewrite Hpre0, <- app_assoc.
    + left. split; [done|]. by exists t, toks.
Qed.

(** A run that reaches a closepath standing before a number hangs. *)
Lemma run_to_closepath n m st toks st' z t rest :
  run n st toks = Ret st' →
  cmd_in (Some z) "Z" "z" = true → Re.fullmatch_cmd t = false →
  run m st (toks ++ z :: t :: rest) = Hang.
Proof.
  intros Hrun HZ Ht.
  assert (Re.fullmatch_cmd z = true) as Hz.
  { revert HZ. unfold cmd_in.
    intros [[= ->]%bool_decide_eq_true|[= ->]%bool_decide_eq_true]%orb_true_iff; done. }
  revert m st toks Hrun. induction n as [|n IH]; intros m st toks Hrun.
  - destruct toks; simpl in Hrun; [|done]. injection Hrun as ->.
    destruct m as [|m]; [done|]. simpl.
    destruct (cmd_in_closepath _ HZ) as (HM & HL & HH & HV).
    unfold step. rewrite Hz, HM, HL, HH, HV, HZ. simpl.
    apply run_closepath_number; [by rewrite closepath_cmd|done].
  - destruct toks as [|t0 toks]; simpl in Hrun.
    + injection Hrun as ->. apply (IH m st' []). by destruct n.
    + destruct (step st t0 toks) as [[st1 toks1]| |] eqn:Hs; [|done..].
      apply step_ret in Hs as (_ & _ & Happ).
      destruct m as [|m]; [done|]. simpl. rewrite (Happ z (t :: rest) Hz). by apply IH.
Qed.

Lemma taken_no_moveto (taken : list string) :
  (∀ t, Re.fullmatch_cmd t = true → float (F:=F) t = None) →
  Forall (λ t, is_Some (float (F:=F) t)) taken → List.filter is_moveto taken = [].
Proof.
  intros Hfloat. induction 1 as [|t taken [x Hx] _ IH]; [done|]. simpl.
  destruct (is_moveto t) eqn:Ht; [|done].
  apply is_moveto_cmd, Hfloat in Ht. congruence.
Qed.

(** A run that returns has added one subpath for each moveto letter. *)
Lemma run_counts n st toks st' :
  (∀ t, Re.fullmatch_cmd t = true → float (F:=F) t = None) →
  run n st toks = Ret st' → at_command toks → polys st ≠ [] ∨ at_moveto toks →
  length (polys st') = (length (polys st) + length (List.filter is_moveto toks))%nat.
Proof.
  intros Hfloat. revert st toks. induction n as [|n IH]; intros st toks Hrun Hat Hfirst.
  - destruct toks; simpl in Hrun; [|done]. injection Hrun as ->. simpl. lia.
  - destruct toks as [|t toks]; simpl in Hrun.
    { injection Hrun as ->. simpl. lia. }
    simpl in Hat. destruct (step st t toks) as [[st1 toks1]| |] eqn:Hs; [|done..].
    pose proof (step_takes _ _ _ _ _ Hs) as (_ & _ & Hc).
    destruct (Hc Hat) as ((taken & -> & Htaken) & Hat1 & Hmv & Hnmv).
    pose proof (step_cmd _ _ _ _ _ Hs) as [Hcmd _]. rewrite Hat in Hcmd.
    assert (at_command toks1) as Hat1'.
    { destruct (cmd_in (Some t) "Z" "z") eqn:HZ; [|by apply Hat1].
      destruct toks1 as [|t' rest]; [done|]. simpl.
      destruct (Re.fullmatch_cmd t') eqn:Ht'; [done|].
      rewrite run_closepath_number in Hrun; [done|by rewrite Hcmd|done]. }
    assert (length (polys st1)
            = (length (polys st) + length (List.filter is_moveto [t]))%nat
            ∧ polys st1 ≠ []) as [Hlen Hne].
    { simpl. destruct (is_moveto t) eqn:Ht.
      - rewrite (Hmv eq_refl). split; [simpl; lia|].
        intros Hnil%(f_equal length). rewrite (Hmv eq_refl) in Hnil. done.
      - destruct Hfirst as [Hne|Hfirst]; [|simpl in Hfirst; congruence].
        rewrite (Hnmv eq_refl Hne). split; [simpl; lia|].
        intros Hnil%(f_equal length). rewrite (Hnmv eq_refl Hne) in Hnil.
        by destruct (polys st). }
    rewrite (IH st1 toks1 Hrun Hat1' (or_introl Hne)), Hlen.
    change (t :: taken ++ toks1) with ([t] ++ taken ++ toks1).
    rewrite !List.filter_app, !length_app, (taken_no_moveto _ Hfloat Htaken). simpl. lia.
Qed.

End LoopFacts.

(** ** How the interpreter ends *)

Section InterpreterFacts.

Context {F : Type} `{Number F}.

(** X6.  The errors of the interpreter.  When [float] reads every literal of
    the [num] grammar, [path_to_points] raises in three ways only: the data
    ends where a number is read; the data starts with a number, which is
    reported as an unsupported command [None]; or a command letter stands
    where a moveto reads a number, and [float] refuses that letter. *)
Theorem path_to_points_errors (d : string) (e : exn) :
  (∀ t, Re.fullmatch_num t = true → is_Some (float (F:=F) t)) →
  path_to_points (F:=F) d = Raise e →
  e = UnexpectedEndOfData
  ∨ (e = UnsupportedCommand None
     ∧ ∃ t rest, Re.findall_CMD d = t :: rest ∧ Re.fullmatch_cmd t = false)
  ∨ (∃ s, e = FloatError s ∧ s ∈ Re.findall_CMD d ∧ Re.fullmatch_cmd s = true).
Proof.
  intros Hfloat. unfold path_to_points, main_loop.
  destruct (run _ _ _) as [st|e'|] eqn:Hrun; [done| |done]. intros [= ->].
  apply run_raises in Hrun as [[->|(s & -> & Hs & Hnone)]|(-> & _ & Hfirst)];
    [by left| |by right; left|by left].
  right; right. exists s. split_and!; [done|done|].
  pose proof (NumFacts.findall_CMD_tokens d) as Htoks.
  rewrite Forall_forall in Htoks. destruct (Htoks s Hs) as [Hc|Hl]; [done|].
  apply NumFacts.fullmatch_num_literal, Hfloat in Hl as [x Hx]. congruence.
Qed.

(** X7.  The error for an unsupported command is raised exactly when the first
    token of the data is a number, and it names no command. *)
Theorem unsupported_command_iff (d : string) (c : option string) :
  path_to_points (F:=F) d = Raise (UnsupportedCommand c)
  ↔ c = None ∧ ∃ t rest, Re.findall_CMD d = t :: rest ∧ Re.fullmatch_cmd t = false.
Proof.
  unfold path_to_points, main_loop. split.
  - destruct (run _ _ _) as [st|e'|] eqn:Hrun; [done| |done]. intros [= ->].
    apply run_raises in Hrun as [[?|(s & ? & _)]|([= ->] & _ & Hfirst)];
      [done|done|done|by left].
  - intros (-> & t & rest & Htoks & Ht). rewrite Htoks. simpl length.
    by rewrite (run_number_first _ _ t rest initial eq_refl eq_refl Ht).
Qed.

(** X8.  A closepath followed by a number makes the interpreter loop for ever:
    when the tokens before the closepath are interpreted without error, the
    call never returns, and the program that meets such a path element
    never ends. *)
Theorem closepath_before_number_hangs (d : string) (pre : list string) (z t : string)
    (rest : list string) (st : @state F) :
  Re.findall_CMD d = pre ++ z :: t :: rest →
  run (length pre) initial pre = Ret st →
  cmd_in (Some z) "Z" "z" = true → Re.fullmatch_cmd t = false →
  path_to_points (F:=F) d = Hang
  ∧ ∀ outp el elems out (all_polys : list (list (@point F))),
      Str.endswith "path" (tag el) = true → get el "d" = Some d →
      process outp (el :: elems) out all_polys = Outcome out Forever.
Proof.
  intros Htoks Hrun HZ Ht.
  assert (path_to_points (F:=F) d = Hang) as Hp.
  { unfold path_to_points, main_loop. rewrite Htoks.
    by rewrite (run_to_closepath _ _ _ _ _ _ _ _ Hrun HZ Ht). }
  split; [done|]. intros outp el elems out all_polys Htag Hd.
  simpl. rewrite Htag, Hd. simpl.
  destruct d as [|c d]; [by destruct pre|]. by rewrite Hp.
Qed.

(** X9.  The interpreter fails to end in that case only: the data of a call
    that never returns holds a closepath followed by a number. *)
Theorem hang_is_closepath_before_number (d : string) :
  path_to_points (F:=F) d = Hang →
  ∃ pre z t rest, Re.findall_CMD d = pre ++ z :: t :: rest
    ∧ cmd_in (Some z) "Z" "z" = true ∧ Re.fullmatch_cmd t = false.
Proof.
  unfold path_to_points, main_loop.
  destruct (run _ _ _) as [st|e'|] eqn:Hrun; [done|done|]. intros _.
  apply run_hang_closepath in Hrun as [[HZ _]|Hex]; [done|done|lia].
Qed.

(** X10.  When the data starts with a moveto and [float] refuses the command
    letters, a call that returns gives one ring for each moveto letter of
    the data. *)
Theorem one_ring_per_moveto (d : string) (rings : list (list (@point F))) :
  (∀ t, Re.fullmatch_cmd t = true → float (F:=F) t = None) →
  at_moveto (Re.findall_CMD d) →
  path_to_points (F:=F) d = Ret rings →
  length rings = length (List.filter is_moveto (Re.findall_CMD d)).
Proof.
  intros Hfloat Hfirst. unfold path_to_points, main_loop.
  intros (st & Hrun & [= <-])%bind_ret. rewrite length_fmap.
  apply run_counts in Hrun; [done|done| |by right].
  destruct (Re.findall_CMD d) as [|t rest]; [done|]. by apply is_moveto_cmd.
Qed.

End InterpreterFacts.

Lemma path_to_points_errors_witness :
  path_to_points (F:=Qc) "M 1 L" = Raise (FloatError "L") ∧ Re.fullmatch_cmd "L" = true.
Proof.
  assert (∀ t, Re.fullmatch_num t = true → is_Some (float (F:=Qc) t)) as Hfloat.
  { intros t Ht. change (float t) with (Exact.float_of_literal t).
    unfold Exact.float_of_literal. rewrite Ht. by eexists. }
  assert (path_to_points (F:=Qc) "M 1 L" = Raise (FloatError "L")) as Hp by evaluate.
  split; [exact Hp|].
  destruct (path_to_points_errors (F:=Qc) _ _ Hfloat Hp)
    as [He|[[He _]|(s & He & _ & Hs)]]; [discriminate He|discriminate He|].
  injection He as <-. exact Hs.
Defined.

Lemma unsupported_command_iff_witness :
  path_to_points (F:=Qc) "1 2 M 3 4" = Raise (UnsupportedCommand None).
Proof.
  apply unsupported_command_iff. split; [reflexivity|].
  exists "1", ["2"; "M"; "3"; "4"]. split; vm_compute; reflexivity.
Defined.

Lemma closepath_before_number_hangs_witness :
  path_to_points (F:=Qc) "M 0 0 L 1 0 1 1 Z 5 5" = Hang
  ∧ main ["svg2walkable.py"; "in.svg"; "out.json"]
      (Sample.only (Sample.svg [Sample.path "M 0 0 L 1 0 1 1 Z 5 5"]))
    = Outcome (F:=Qc) [] Forever.
Proof.
  assert (run (F:=Qc) 8 initial ["M"; "0"; "0"; "L"; "1"; "0"; "1"; "1"]
          = Ret (State (Exact.pt 1 1) (Some (Exact.pt 0 0))
                   [[Exact.pt 0 0; Exact.pt 1 0; Exact.pt 1 1]] (Some "L")))
    as Hrun by evaluate.
  destruct (closepath_before_number_hangs (F:=Qc) "M 0 0 L 1 0 1 1 Z 5 5"
              ["M"; "0"; "0"; "L"; "1"; "0"; "1"; "1"] "Z" "5" ["5"] _
              ltac:(vm_compute; reflexivity) Hrun
              ltac:(vm_compute; reflexivity) ltac:(vm_compute; reflexivity))
    as [Hp Hmain].
  split; [exact Hp|].
  exact (Hmain "out.json" (Sample.path "M 0 0 L 1 0 1 1 Z 5 5") [] [] []
           ltac:(vm_compute; reflexivity) ltac:(vm_compute; reflexivity)).
Defined.

Lemma hang_is_closepath_before_number_witness :
  ∃ pre z t rest, Re.findall_CMD "z-1" = pre ++ z :: t :: rest
    ∧ cmd_in (Some z) "Z" "z" = true ∧ Re.fullmatch_cmd t = false.
Proof.
  apply (hang_is_closepath_before_number (F:=Qc)).
  unfold path_to_points, main_loop.
  by rewrite (run_closepath_number (F:=Qc) 1 (closepath initial (Some "z")) "-1" []).
Defined.

Lemma one_ring_per_moveto_witness :
  ∃ rings : list (list (@point Qc)),
    path_to_points "M0,0 L10,0 V10 z m5,5 h1" = Ret rings ∧ length rings = 2%nat.
Proof.
  assert (∀ t, Re.fullmatch_cmd t = true → float (F:=Qc) t = None) as Hfloat.
  { intros t Ht. change (float t) with (Exact.float_of_literal t).
    unfold Exact.float_of_literal. by rewrite (cmd_not_num _ Ht). }
  assert (∃ rings : list (list (@point Qc)),
            path_to_points "M0,0 L10,0 V10 z m5,5 h1" = Ret rings) as [rings Hp].
  { destruct (path_to_points (F:=Qc) "M0,0 L10,0 V10 z m5,5 h1") as [rings| |] eqn:Hp;
      [by exists rings|exfalso..]; revert Hp; vm_compute; discriminate. }
  exists rings. split; [exact Hp|].
  assert (at_moveto (Re.findall_CMD "M0,0 L10,0 V10 z m5,5 h1")) as Hfirst
    by (vm_compute; reflexivity).
  rewrite (one_ring_per_moveto (F:=Qc) _ _ Hfloat Hfirst Hp).
  vm_compute. reflexivity.
Defined.

(** ** A moveto and its pairs *)

Section MovetoFacts.

Context {F : Type} `{Number F}.

Lemma last_of_cons {A} (a d : A) (l : list A) : last_of (a :: l) d = last_of l a.
Proof.
  destruct l as [|b l]; [done|]. change (last_of (a :: b :: l) d) with (last_of (b :: l) d).
  by apply last_of_default.
Qed.

Lemma literal_not_cmd t : Re.literal t → Re.fullmatch_cmd t = false.
Proof.
  intros Hl%NumFacts.fullmatch_num_literal.
  destruct (Re.fullmatch_cmd t) eqn:Ht; [|done]. apply cmd_not_num in Ht. congruence.
Qed.

(** The pairs after an absolute moveto are read as the polygon parser
    reads them. *)
Lemma moveto_pairs_points (poly : list (@point F)) (cur : @point F)
    (pairs : list (string * string)) :
  Forall (λ p, Re.fullmatch_cmd p.1 = false) pairs →
  moveto_pairs false poly cur (pair_tokens pairs)
  = (pts ← pairs_to_points pairs; mret (poly ++ pts, last_of pts cur, [])).
Proof.
  intros Hpairs. revert poly cur.
  induction Hpairs as [|[a b] pairs Ha _ IH]; intros poly cur.
  - simpl. by rewrite app_nil_r.
  - simpl in Ha. change (pair_tokens ((a, b) :: pairs)) with (a :: b :: pair_tokens pairs).
    simpl. rewrite Ha.
    destruct (to_float a) as [x|e|]; [|done..].
    destruct (to_float b) as [y|e|]; [|done..]. simpl.
    rewrite IH. destruct (pairs_to_points pairs) as [pts|e|]; [|done..]. simpl.
    rewrite <- app_assoc. destruct pts as [|p pts]; [done|].
    by rewrite (last_of_default (p :: pts) (x, y) cur).
Qed.

(** X11.  A path that is one absolute moveto followed by the pairs of a [points]
    text gives the ring the polygon parser gives for that text, and fails
    as the polygon parser fails. *)
Theorem moveto_path_is_polygon (d s : string) :
  Re.findall_CMD d = "M" :: pair_tokens (Re.findall_pair (Str.strip s)) →
  Re.findall_pair (Str.strip s) ≠ [] →
  path_to_points (F:=F) d = (ring ← polygon_points_attr_to_list s; mret [ring]).
Proof.
  intros Htoks Hne. unfold path_to_points, main_loop, polygon_points_attr_to_list.
  rewrite Htoks. pose proof (findall_pair_literals (Str.strip s)) as Hlit.
  destruct (Re.findall_pair (Str.strip s)) as [|[a b] pairs]; [done|].
  apply Forall_cons in Hlit as [_ Hlit].
  assert (Forall (λ p : string * string, Re.fullmatch_cmd p.1 = false) pairs) as Hcmd.
  { eapply Forall_impl; [exact Hlit|]. intros p [Hp _]. by apply literal_not_cmd. }
  change (pair_tokens ((a, b) :: pairs)) with (a :: b :: pair_tokens pairs).
  assert (step initial "M" (a :: b :: pair_tokens pairs)
          = (x ← to_float a; y ← to_float b; pts ← pairs_to_points pairs;
             mret (State (last_of pts (x, y)) (Some (x, y)) [(x, y) :: pts] (Some "M"), [])))
    as Hstep.
  { unfold step. change (Re.fullmatch_cmd "M") with true. cbv iota.
    change (cmd_in (Some "M") "M" "m") with true. cbv iota.
    change (bool_decide (Some "M" = Some "m")) with false. cbv iota.
    cbn [readnum].
    destruct (to_float a) as [x|e|]; simpl; [|done..].
    destruct (to_float b) as [y|e|]; simpl; [|done..].
    rewrite (moveto_pairs_points _ _ _ Hcmd).
    by destruct (pairs_to_points pairs) as [pts|e|]. }
  change (length ("M" :: a :: b :: pair_tokens pairs))
    with (S (length (a :: b :: pair_tokens pairs))).
  generalize (length (a :: b :: pair_tokens pairs)) as n. intros n.
  cbn [run pairs_to_points]. rewrite Hstep.
  destruct (to_float a) as [x|e|]; simpl; [|done..].
  destruct (to_float b) as [y|e|]; simpl; [|done..].
  destruct (pairs_to_points pairs) as [pts|e|]; simpl; [|done..].
  by destruct n.
Qed.

End MovetoFacts.

Lemma moveto_path_is_polygon_witness :
  path_to_points (F:=Qc) "M 0,0 4,0 4,3" = Ret [[Exact.pt 0 0; Exact.pt 4 0; Exact.pt 4 3; Exact.pt 0 0]]
  ∧ polygon_points_attr_to_list (F:=Qc) " 0,0 4,0 4,3 "
    = Ret [Exact.pt 0 0; Exact.pt 4 0; Exact.pt 4 3; Exact.pt 0 0].
Proof.
  assert (polygon_points_attr_to_list (F:=Qc) " 0,0 4,0 4,3 "
          = Ret [Exact.pt 0 0; Exact.pt 4 0; Exact.pt 4 3; Exact.pt 0 0]) as Hp by evaluate.
  split; [|exact Hp].
  rewrite (moveto_path_is_polygon (F:=Qc) "M 0,0 4,0 4,3" " 0,0 4,0 4,3 "
             ltac:(vm_compute; reflexivity) ltac:(vm_compute; discriminate)).
  by rewrite Hp.
Defined.

(** ** The selector of the command line *)

Module SelectFacts.

Lemma contains_app c a b : Str.contains c (a +:+ b) = Str.contains c a || Str.contains c b.
Proof.
  induction a as [|d a IH]; [by rewrite StrFacts.app_nil_l|].
  rewrite StrFacts.app_cons. simpl. by destruct (decide (c = d)).
Qed.

(** [s.split(c, 1)]: the text before the first [c] holds no [c]. *)
Lemma cut_spec c s a r :
  Str.cut c s = (a, r) →
  Str.contains c a = false
  ∧ match r with Some b => s = a +:+ String c b | None => s = a end.
Proof.
  revert a r. induction s as [|d s IH]; intros a r; simpl.
  - by intros [= <- <-].
  - destruct (decide (c = d)) as [->|Hcd].
    + intros [= <- <-]. by rewrite StrFacts.app_nil_l.
    + destruct (Str.cut c s) as [a' r'] eqn:Hcut. intros [= <- <-].
      destruct (IH a' r' eq_refl) as [Ha' Hr']. simpl.
      destruct (decide (c = d)); [done|]. split; [done|].
      destruct r' as [b|]; rewrite StrFacts.app_cons || idtac; by rewrite Hr' at 1.
Qed.

Lemma cut_intro c a b : Str.contains c a = false → Str.cut c (a +:+ String c b) = (a, Some b).
Proof.
  induction a as [|d a IH].
  - intros _. rewrite StrFacts.app_nil_l. simpl. by destruct (decide (c = c)).
  - rewrite StrFacts.app_cons. simpl.
    destruct (decide (c = d)); [done|]. intros Ha. by rewrite (IH Ha).
Qed.

Lemma cut_none c a : Str.contains c a = false → Str.cut c a = (a, None).
Proof.
  induction a as [|d a IH]; simpl; [done|].
  destruct (decide (c = d)); [done|]. intros Ha. by rewrite (IH Ha).
Qed.

Lemma rev_app_spec s1 s2 : String.rev_app s1 s2 = String.rev s1 +:+ s2.
Proof.
  revert s2. induction s1 as [|a s1 IH]; intros s2; [by rewrite StrFacts.app_nil_l|].
  unfold String.rev. simpl. rewrite (IH (String a s2)), (IH (String a "")).
  by rewrite StrFacts.app_assoc, StrFacts.app_cons, StrFacts.app_nil_l.
Qed.

Lemma rev_cons d cur : String.rev (String d cur) = String.rev cur +:+ String d "".
Proof. unfold String.rev at 1. simpl. apply rev_app_spec. Qed.

(** [s.split(c)] cuts at the first [c] and splits the rest. *)
Lemma split_go_cut c cur s :
  Str.split_go c cur s
  = (String.rev cur +:+ (Str.cut c s).1)
    :: match (Str.cut c s).2 with Some b => Str.split_go c "" b | None => [] end.
Proof.
  revert cur. induction s as [|d s IH]; intros cur; simpl.
  - by rewrite StrFacts.app_nil_r.
  - destruct (decide (c = d)); simpl; [by rewrite StrFacts.app_nil_r|].
    rewrite IH. destruct (Str.cut c s) as [a r]. simpl.
    by rewrite rev_cons, StrFacts.app_assoc, StrFacts.app_cons, StrFacts.app_nil_l.
Qed.

Lemma split_cut c s :
  Str.split c s
  = (Str.cut c s).1 :: match (Str.cut c s).2 with Some b => Str.split c b | None => [] end.
Proof. unfold Str.split. by rewrite split_go_cut, StrFacts.app_nil_l. Qed.

End SelectFacts.

(** X12.  The selectors the program accepts.  The piece [kv] the program takes
    from [sys.argv[3]] lies between two equals signs and holds none, so the
    branch that splits it at an equals sign is never taken: an accepted
    selector is [KEY:VALUE] behind the first equals sign, the key without
    colon, and what follows a second equals sign is dropped. *)
Theorem accepted_selector (argv : list string) (key val : string) :
  parse_select argv = Some (Some key, Some val) →
  ∃ arg pre tail,
    argv !! 3%nat = Some arg ∧ Str.startswith "--select" arg = true
    ∧ arg = pre +:+ "=" +:+ key +:+ ":" +:+ val +:+ tail
    ∧ Str.contains "="%char pre = false
    ∧ Str.contains "="%char key = false ∧ Str.contains ":"%char key = false
    ∧ Str.contains "="%char val = false
    ∧ (tail = "" ∨ Str.starts (λ c, bool_decide (c = "="%char)) tail = true).
Proof.
  unfold parse_select. destruct (argv !! 3%nat) as [arg|] eqn:Harg; [|done].
  destruct (Str.startswith "--select" arg) eqn:Hsw; [|done].
  rewrite SelectFacts.split_cut. destruct (Str.cut "=" arg) as [pre [b|]] eqn:Hpre; [|done].
  cbn [fst snd]. rewrite SelectFacts.split_cut. destruct (Str.cut "=" b) as [kv r] eqn:Hkv.
  cbn [fst snd]. change ((pre :: kv :: _) !! 1%nat) with (Some kv).
  apply SelectFacts.cut_spec in Hpre as [Hpre ->]. apply SelectFacts.cut_spec in Hkv as [Hkv Hb].
  rewrite Hkv. unfold Str.split1.
  destruct (Str.cut ":" kv) as [k [v|]] eqn:Hk; [|done]. intros [= <- <-].
  apply SelectFacts.cut_spec in Hk as [Hk ->].
  rewrite SelectFacts.contains_app in Hkv. apply orb_false_iff in Hkv as [Hkey Hval].
  simpl in Hval. destruct (decide ("="%char = ":"%char)) as [|_]; [done|].
  exists (pre +:+ String "=" b), pre, (match r with Some b' => String "=" b' | None => "" end).
  split_and!; [done|done| |done|done|done|done|by destruct r; [right|left]].
  f_equal. rewrite StrFacts.app_cons, StrFacts.app_nil_l. f_equal.
  destruct r as [b'|]; rewrite Hb.
  - by rewrite !StrFacts.app_assoc, !StrFacts.app_cons, !StrFacts.app_nil_l.
  - by rewrite !StrFacts.app_cons, !StrFacts.app_nil_l, StrFacts.app_nil_r.
Qed.

(** X13.  The selectors of the usage line are refused: whatever the key without
    colon and whatever the value, [--select=KEY=VALUE] ends the run with the
    complaint and status 2 before the input is read. *)
Theorem key_equals_value_is_rejected {F : Type} `{Number F} (prog inp outp key val : string)
    (more : list string) (parse : string → option element) :
  Str.contains "="%char key = false → Str.contains ":"%char key = false →
  main (F:=F) (prog :: inp :: outp :: ("--select=" +:+ key +:+ "=" +:+ val) :: more) parse
  = Outcome [BadSelect] (Exit 2).
Proof.
  intros Heq Hcolon.
  assert ("--select=" +:+ key +:+ "=" +:+ val
          = "--select" +:+ String "=" (key +:+ String "=" val)) as ->.
  { by rewrite !StrFacts.app_cons, !StrFacts.app_nil_l. }
  unfold main, parse_select. cbn [lookup list_lookup].
  unfold Str.startswith. rewrite ScanFacts.strip_prefix_app.
  change (bool_decide (is_Some (Some (String "=" (key +:+ String "=" val))))) with true.
  cbv iota. rewrite SelectFacts.split_cut, (SelectFacts.cut_intro "=" "--select") by done.
  cbn [fst snd]. rewrite SelectFacts.split_cut, (SelectFacts.cut_intro "=" key) by done.
  cbn [fst snd]. change ((_ :: key :: _) !! 1%nat) with (Some key).
  cbv iota. rewrite Heq. unfold Str.split1. by rewrite (SelectFacts.cut_none _ _ Hcolon).
Qed.

Lemma accepted_selector_witness :
  ∃ arg pre tail,
    arg = "--select-by=class:walk:able=dropped=too"
    ∧ arg = pre +:+ "=" +:+ "class" +:+ ":" +:+ "walk:able" +:+ tail
    ∧ (tail = "" ∨ Str.starts (λ c, bool_decide (c = "="%char)) tail = true).
Proof.
  destruct (accepted_selector
              ["svg2walkable.py"; "in.svg"; "out.json"; "--select-by=class:walk:able=dropped=too"]
              "class" "walk:able" eq_refl)
    as (arg & pre & tail & [= <-] & _ & Harg & _ & _ & _ & _ & Htail).
  by exists "--select-by=class:walk:able=dropped=too", pre, tail.
Defined.

Lemma key_equals_value_is_rejected_witness :
  main (F:=Qc) ["svg2walkable.py"; "in.svg"; "out.json"; "--select=label=Walkable"]
    (Sample.only (Sample.svg []))
  = Outcome [BadSelect] (Exit 2).
Proof.
  exact (key_equals_value_is_rejected (F:=Qc) "svg2walkable.py" "in.svg" "out.json"
           "label" "Walkable" [] (Sample.only (Sample.svg [])) eq_refl eq_refl).
Defined.

(** ** The elements chosen and the element loop *)

Lemma findall_spec root t el :
  el ∈ findall root t ↔ tag el = t ∧ el ∈ flat_map iter (children root).
Proof. unfold findall. by rewrite list_elem_of_filter. Qed.

Lemma select_elements_parts root key val :
  Forall (λ el, tag el = svg_path ∧ el ∈ flat_map iter (children root)
                ∧ selected key val el = true)
    (filter (λ el, selected key val el = true) (findall root svg_path))
  ∧ Forall (λ el, tag el = svg_polygon ∧ el ∈ flat_map iter (children root)
                  ∧ selected key val el = true)
      (filter (λ el, selected key val el = true) (findall root svg_polygon)).
Proof.
  split; apply Forall_forall; intros el [Hsel [Htag Hin]%findall_spec]%list_elem_of_filter; done.
Qed.

Lemma choose_elements_warning root key val warning elems :
  choose_elements root key val = (warning, elems) →
  warning = [] ∨ ∃ k v, warning = [NothingMatched k v].
Proof.
  unfold choose_elements. destruct (truthy key && truthy val); [|intros [= <- _]; by left].
  destruct (select_elements root _ _); intros [= <- _]; [right; by eexists _, _|by left].
Qed.

(** X14.  The elements the program processes are path and polygon elements below
    the root, all the paths before all the polygons whatever their order in
    the document; none is processed only when the document has none; and
    when the warning is printed, or no selector with key and value is given,
    they are all the paths and polygons of the document, while a selector
    that matches leaves the matching ones only. *)
Theorem chosen_elements (root : element) (key val : option string)
    (warning : list message) (elems : list element) :
  choose_elements root key val = (warning, elems) →
  (∃ paths polygons, elems = paths ++ polygons
     ∧ Forall (λ el, tag el = svg_path ∧ el ∈ flat_map iter (children root)) paths
     ∧ Forall (λ el, tag el = svg_polygon ∧ el ∈ flat_map iter (children root)) polygons)
  ∧ (elems = [] ↔ findall root svg_path ++ findall root svg_polygon = [])
  ∧ (warning = []
     ∨ ∃ k v, key = Some k ∧ val = Some v ∧ warning = [NothingMatched k v]
         ∧ select_elements root k v = [])
  ∧ (elems = findall root svg_path ++ findall root svg_polygon
     ∨ ∃ k v, key = Some k ∧ val = Some v ∧ warning = [] ∧ elems = select_elements root k v
         ∧ Forall (λ el, selected k v el = true) elems).
Proof.
  assert (∃ paths polygons, findall root svg_path ++ findall root svg_polygon = paths ++ polygons
     ∧ Forall (λ el, tag el = svg_path ∧ el ∈ flat_map iter (children root)) paths
     ∧ Forall (λ el, tag el = svg_polygon ∧ el ∈ flat_map iter (children root)) polygons)
    as Hall.
  { exists (findall root svg_path), (findall root svg_polygon).
    split_and!; [done|..]; apply Forall_forall; by intros el ?%findall_spec. }
  unfold choose_elements. destruct (truthy key && truthy val) eqn:Htruthy.
  - destruct key as [k|]; [|done]. destruct val as [v|]; [|by destruct k]. cbn [default].
    destruct (select_elements root k v) as [|el sel] eqn:Hsel.
    + intros [= <- <-]. rewrite !Hsel. split_and!; [done|done| |by left].
      right. by exists k, v.
    + intros [= <- <-]. rewrite !Hsel. cbv iota. rewrite <- !Hsel.
      destruct (select_elements_parts root k v) as [Hpaths Hpolygons].
      split_and!.
      * exists (filter (λ el, selected k v el = true) (findall root svg_path)),
          (filter (λ el, selected k v el = true) (findall root svg_polygon)).
        split_and!; [done|..]; (eapply Forall_impl; [eassumption|]);
          by intros ? (? & ? & ?).
      * split; [by rewrite Hsel|]. intros Hnil. apply app_eq_nil in Hnil as [Hp Hq].
        revert Hsel. unfold select_elements. by rewrite Hp, Hq.
      * by left.
      * right. exists k, v. split_and!; [done..|].
        unfold select_elements. apply Forall_app. split;
          (eapply Forall_impl; [eassumption|]); by intros ? (? & ? & ?).
  - intros [= <- <-]. split_and!; [done|done|by left|by left].
Qed.

Lemma chosen_elements_witness :
  choose_elements
    (Sample.svg [Sample.polygon "0,0 1,0 1,1"; Sample.path "M0,0 L10,0"; Sample.path "M1,1"])
    None None
  = ([], [Sample.path "M0,0 L10,0"; Sample.path "M1,1"; Sample.polygon "0,0 1,0 1,1"])
  ∧ ∃ paths polygons,
      [Sample.path "M0,0 L10,0"; Sample.path "M1,1"; Sample.polygon "0,0 1,0 1,1"]
      = paths ++ polygons
      ∧ Forall (λ el, tag el = svg_path) paths ∧ Forall (λ el, tag el = svg_polygon) polygons.
Proof.
  assert (choose_elements
            (Sample.svg [Sample.polygon "0,0 1,0 1,1"; Sample.path "M0,0 L10,0";
                         Sample.path "M1,1"]) None None
          = ([], [Sample.path "M0,0 L10,0"; Sample.path "M1,1"; Sample.polygon "0,0 1,0 1,1"]))
    as Hc by (vm_compute; reflexivity).
  split; [exact Hc|].
  destruct (chosen_elements _ _ _ _ _ Hc) as ((paths & polygons & Heq & Hp & Hq) & _).
  exists paths, polygons. split_and!; [exact Heq|..];
    (eapply Forall_impl; [eassumption|]); by intros ? [? _].
Defined.

Section ProgramFacts.

Context {F : Type} `{Number F}.

Lemma floats_raises pieces ex :
  floats (F:=F) pieces = Raise ex → ∃ s, ex = FloatError s ∧ float (F:=F) s = None.
Proof.
  induction pieces as [|x pieces IH]; simpl; [done|].
  destruct (decide (x = "")); [done|].
  destruct (to_float x) as [v|e|] eqn:Hx; simpl; [| |done].
  - destruct (floats pieces) as [vs|e|]; simpl; [done| |done]. intros [= <-]. by apply IH.
  - intros [= <-]. apply to_float_raise in Hx as [-> Hx]. by exists x.
Qed.

Lemma accumulate_calls_raises (tr : @transform F) items ex :
  accumulate_calls tr items = Raise ex → ∃ s, ex = FloatError s ∧ float (F:=F) s = None.
Proof.
  revert tr. induction items as [|[kind group2] items IH]; intros tr; simpl; [done|].
  destruct (call_args group2) as [args|e|] eqn:Hargs; simpl; [apply IH| |done].
  intros [= <-]. by apply floats_raises in Hargs.
Qed.

Lemma own_transform_raises t ex :
  own_transform (F:=F) t = Raise ex → ∃ s, ex = FloatError s ∧ float (F:=F) s = None.
Proof. destruct t as [t|]; [apply accumulate_calls_raises|done]. Qed.

Lemma pairs_to_points_raises pairs ex :
  pairs_to_points (F:=F) pairs = Raise ex → ∃ s, ex = FloatError s ∧ float (F:=F) s = None.
Proof.
  induction pairs as [|[a b] pairs IH]; simpl; [done|].
  destruct (to_float a) as [x|e|] eqn:Ha; simpl; [| |done].
  - destruct (to_float b) as [y|e|] eqn:Hb; simpl; [| |done].
    + destruct (pairs_to_points pairs) as [pts|e|]; simpl; [done| |done].
      intros [= <-]. by apply IH.
    + intros [= <-]. apply to_float_raise in Hb as [-> Hb]. by exists b.
  - intros [= <-]. apply to_float_raise in Ha as [-> Ha]. by exists a.
Qed.

Lemma polygon_points_raises s ex :
  polygon_points_attr_to_list (F:=F) s = Raise ex →
  ∃ s, ex = FloatError s ∧ float (F:=F) s = None.
Proof.
  unfold polygon_points_attr_to_list.
  destruct (pairs_to_points _) as [pts|e|] eqn:Hp; simpl; [done| |done].
  intros [= <-]. by apply pairs_to_points_raises in Hp.
Qed.

Lemma loop_outcome_more outp out (all_polys more : list (list (@point F))) o :
  loop_outcome outp out (all_polys ++ more) o → loop_outcome outp out all_polys o.
Proof.
  intros (skips & Hskips & Ho). exists skips. split; [done|].
  destruct (final o) as [code| |ex| |outp' polys]; [done..|].
  destruct Ho as (-> & Hout & new & ->). split_and!; [done|done|].
  exists (more ++ new). by rewrite app_assoc.
Qed.

Lemma loop_outcome_skip outp out ex (all_polys : list (list (@point F))) o :
  loop_outcome outp (out ++ [SkippingPath ex]) all_polys o → loop_outcome outp out all_polys o.
Proof.
  intros (skips & Hskips & Ho). exists (SkippingPath ex :: skips).
  split; [apply Forall_cons_2; [by exists ex|done]|].
  destruct (final o) as [code| |ex'| |outp' polys]; [done| | | |].
  - done.
  - destruct Ho as [-> Hs]. split; [|done]. by rewrite <- app_assoc.
  - rewrite Ho. by rewrite <- app_assoc.
  - destruct Ho as (-> & -> & Hnew). split_and!; [done| |done]. by rewrite <- app_assoc.
Qed.

Lemma loop_outcome_forever outp out (all_polys : list (list (@point F))) :
  loop_outcome outp out all_polys (Outcome out Forever).
Proof. exists []. split; [done|]. simpl. by rewrite app_nil_r. Qed.

Lemma loop_outcome_uncaught outp out (all_polys : list (list (@point F))) ex :
  (∃ s, ex = FloatError s ∧ float (F:=F) s = None) →
  loop_outcome outp out all_polys (Outcome out (Uncaught ex)).
Proof. intros Hex. exists []. split; [done|]. simpl. by rewrite app_nil_r. Qed.

(** The element loop, from any point it is entered at. *)
Lemma process_outcome outp elems out (all_polys : list (list (@point F))) :
  loop_outcome outp out all_polys (process outp elems out all_polys).
Proof.
  revert out all_polys. induction elems as [|el elems IH]; intros out all_polys.
  - exists []. split; [done|]. simpl. split_and!; [done|done|]. exists []. by rewrite app_nil_r.
  - cbn [process].
    assert (∀ polys, loop_outcome outp out all_polys
              match own_transform (get el "transform") with
              | Ret tr => process outp elems out (all_polys ++ emit tr polys)
              | Raise ex => Outcome out (Uncaught ex)
              | Hang => Outcome out Forever
              end) as Htransformed.
    { intros polys. destruct (own_transform (get el "transform")) as [tr|ex|] eqn:Htr.
      - eapply loop_outcome_more, IH.
      - by apply loop_outcome_uncaught, (own_transform_raises _ _ Htr).
      - apply loop_outcome_forever. }
    destruct (Str.endswith "path" (tag el) && truthy (get el "d")).
    { destruct (path_to_points (default "" (get el "d"))) as [polys|ex|].
      - apply Htransformed.
      - eapply loop_outcome_skip, IH.
      - apply loop_outcome_forever. }
    destruct (Str.endswith "polygon" (tag el) && truthy (get el "points")); [|apply IH].
    destruct (polygon_points_attr_to_list (default "" (get el "points"))) as [poly|ex|] eqn:Hp.
    + apply Htransformed.
    + by apply loop_outcome_uncaught, (polygon_points_raises _ _ Hp).
    + apply loop_outcome_forever.
Qed.



End ProgramFacts.



(** ** Horizontal and vertical linetos, and the identity transform *)

Section AxisFacts.

Context {F : Type} `{Number F}.

(** X17.  A horizontal lineto appends one point for each number it reads, all
    at the ordinate of the current point, and leaves the current point at
    the last of them; a vertical lineto does the same at the abscissa of the
    current point. *)
Theorem axis_linetos (rel : bool) (polys polys' : list (list (@point F)))
    (cur cur' : @point F) (toks toks' : list string) :
  (hlineto_nums rel polys cur toks = Ret (polys', cur', toks') →
   ∃ added, polys' = foldl append_last polys added
     ∧ Forall (λ p : @point F, p.2 = cur.2) added
     ∧ cur' = last_of added cur
     ∧ (length added + length toks' = length toks)%nat)
  ∧ (vlineto_nums rel polys cur toks = Ret (polys', cur', toks') →
     ∃ added, polys' = foldl append_last polys added
       ∧ Forall (λ p : @point F, p.1 = cur.1) added
       ∧ cur' = last_of added cur
       ∧ (length added + length toks' = length toks)%nat).
Proof.
  split.
  - revert polys cur. induction toks as [|t toks1 IH]; intros polys cur; simpl.
    + intros [= <- <- <-]. by exists [].
    + destruct (Re.fullmatch_cmd t); [intros [= <- <- <-]; by exists []|].
      destruct (to_float t) as [x|e|]; [|done..].
      intros (added & -> & Hadded & -> & Hlen)%IH.
      exists ((if rel then (fadd cur.1 x, cur.2) else (x, cur.2)) :: added).
      split_and!; [done| |by rewrite last_of_cons|simpl; lia].
      apply Forall_cons_2; [by destruct rel|].
      eapply Forall_impl; [exact Hadded|]. intros p ->. by destruct rel.
  - revert polys cur. induction toks as [|t toks1 IH]; intros polys cur; simpl.
    + intros [= <- <- <-]. by exists [].
    + destruct (Re.fullmatch_cmd t); [intros [= <- <- <-]; by exists []|].
      destruct (to_float t) as [y|e|]; [|done..].
      intros (added & -> & Hadded & -> & Hlen)%IH.
      exists ((if rel then (cur.1, fadd cur.2 y) else (cur.1, y)) :: added).
      split_and!; [done| |by rewrite last_of_cons|simpl; lia].
      apply Forall_cons_2; [by destruct rel|].
      eapply Forall_impl; [exact Hadded|]. intros p ->. by destruct rel.
Qed.

(** X18.  An element with no [transform] attribute is written with the
    coordinates of its own data, when multiplying by one and adding zero
    change no number: each ring is written as it was read, less its closing
    point. *)
Theorem untransformed_points (el : element) (rings : list (list (@point F))) :
  (∀ x : F, fmul fone x = x) → (∀ x : F, fadd x fzero = x) →
  get el "transform" = None →
  own_transform (F:=F) (get el "transform") = Ret identity
  ∧ (∀ pts, apply_simple_transform pts identity = pts)
  ∧ emit identity rings = drop_closing <$> rings.
Proof.
  intros Hmul Hadd ->.
  assert (∀ pts : list (@point F), apply_simple_transform pts identity = pts) as Hid.
  { intros pts. unfold apply_simple_transform. induction pts as [|[x y] pts IH]; [done|].
    rewrite fmap_cons, IH. simpl. by rewrite !Hmul, !Hadd. }
  split_and!; [done|done|]. unfold emit. apply list_fmap_ext. intros i ring _. by rewrite Hid.
Qed.

End AxisFacts.

Lemma axis_linetos_witness :
  ∃ added : list (@point Qc),
    [[Exact.pt 1 7; Exact.pt 3 7; Exact.pt 8 7]] = foldl append_last [[Exact.pt 1 7]] added
    ∧ Forall (λ p : @point Qc, p.2 = (Exact.pt 1 7).2) added.
Proof.
  assert (hlineto_nums (F:=Qc) true [[Exact.pt 1 7]] (Exact.pt 1 7) ["2"; "5"; "V"; "4"]
          = Ret ([[Exact.pt 1 7; Exact.pt 3 7; Exact.pt 8 7]], Exact.pt 8 7, ["V"; "4"]))
    as Hh by evaluate.
  destruct (axis_linetos (F:=Qc) true [[Exact.pt 1 7]]
              [[Exact.pt 1 7; Exact.pt 3 7; Exact.pt 8 7]] (Exact.pt 1 7) (Exact.pt 8 7)
              ["2"; "5"; "V"; "4"] ["V"; "4"]) as [Hgen _].
  destruct (Hgen Hh) as (added & Hpolys & Hadded & _). by exists added.
Defined.

Lemma untransformed_points_witness :
  emit (F:=Qc) identity [[Exact.pt 0 0; Exact.pt 4 0; Exact.pt 4 3; Exact.pt 0 0]]
  = [[Exact.pt 0 0; Exact.pt 4 0; Exact.pt 4 3]].
Proof.
  assert (∀ x : Qc, fmul fone x = x) as Hmul by (intros x; apply Qcmult_1_l).
  assert (∀ x : Qc, fadd x fzero = x) as Hadd by (intros x; apply Qcplus_0_r).
  destruct (untransformed_points (F:=Qc) (Sample.path "M0,0 4,0 4,3")
              [[Exact.pt 0 0; Exact.pt 4 0; Exact.pt 4 3; Exact.pt 0 0]]
              Hmul Hadd eq_refl) as (_ & _ & ->).
  evaluate.
Defined.
